(** * Link header interceptor (add-link-header.interceptor.ts)

    A shallow embedding of [intercept], [setLinkHeader] and [buildLink], the
    functions that compute the RFC 5988 [Link] header of a paginated response
    and set it on the response, together with the fragment of the JavaScript
    number and string primitives they call: [Number(string)], [/],
    [Math.floor], [+], [-], [<=], [===] and the number-to-string conversion
    of [toString()] and of template literals, all on binary64 doubles. *)

From Stdlib Require Import ZArith QArith Qround Qreduction.
From Stdlib Require Import Bool List Ascii String DecimalString DecimalPos Lia.
Import ListNotations.

Local Open Scope string_scope.

(** ** JavaScript numbers

    A number is NaN, an infinity, negative zero or a finite value.  A finite
    value is the rational a binary64 double stands for; [Fin 0] is +0, and
    the sign of zero is kept because division observes it.  Every operation
    that can leave the doubles rounds its exact result to the nearest double,
    ties to the even mantissa, overflowing to an infinity and underflowing
    through the subnormals to zero. *)
Module JS.

Inductive number : Type :=
| NaN
| Inf (negative : bool)
| NegZero
| Fin (q : Q).

Definition one : number := Fin 1.

Definition isZero (q : Q) : bool := (Qnum q =? 0)%Z.

Definition sign (x : number) : bool :=
  match x with
  | NaN => false
  | Inf s => s
  | NegZero => true
  | Fin q => (Qnum q <? 0)%Z
  end.

Definition value (x : number) : Q :=
  match x with
  | Fin q => q
  | _ => 0
  end.

Definition zero (negative : bool) : number :=
  if negative then NegZero else Fin 0.

(** a finite value that needs no rounding, in lowest terms *)
Definition fin (q : Q) : number := Fin (Qred q).

(** *** Rounding to binary64 *)

(** [n / d] rounded to the nearest integer, ties to even; [0 <= n], [0 < d] *)
Definition roundHalfEven (n d : Z) : Z :=
  let q := (n / d)%Z in
  let r := (n mod d)%Z in
  if (2 * r <? d)%Z then q
  else if (d <? 2 * r)%Z then (q + 1)%Z
  else if Z.even q then q else (q + 1)%Z.

(** the binary exponent [e] of [n / d], with 2^e <= n / d < 2^(e+1);
    [0 < n], [0 < d].  The fraction is scaled by a power of two [k] that
    brings it to 1 or above. *)
Definition binaryExponent (n d : Z) : Z :=
  let k := Z.max 0 (Z.log2 d + 1 - Z.log2 n) in
  (Z.log2 (n * 2 ^ k / d) - k)%Z.

(** [n / d] rounded to a mantissa [m] of at most 53 bits and an exponent
    [sh] of -1074 or more, standing for m * 2^sh *)
Definition roundMagnitude (n d : Z) : Z * Z :=
  let sh := (Z.max (binaryExponent n d) (-1022) - 52)%Z in
  (roundHalfEven (n * 2 ^ Z.max 0 (- sh)) (d * 2 ^ Z.max 0 sh), sh).

(** [m * 2^sh] *)
Definition scale2 (m sh : Z) : Q :=
  if (0 <=? sh)%Z then inject_Z (m * 2 ^ sh) else Qmake m (Z.to_pos (2 ^ (- sh))).

(** the number of sign [negative] and magnitude m * 2^sh *)
Definition finite (negative : bool) (m sh : Z) : number :=
  if (m =? 0)%Z then zero negative
  else if (1024 <=? Z.log2 m + sh)%Z then Inf negative
  else Fin (Qred (if negative then - scale2 m sh else scale2 m sh)).

(** the double nearest to the rational [q] *)
Definition round64 (q : Q) : number :=
  let r := Qred q in
  match Qnum r with
  | Z0 => Fin 0
  | Zpos p =>
      let (m, sh) := roundMagnitude (Zpos p) (Zpos (Qden r)) in finite false m sh
  | Zneg p =>
      let (m, sh) := roundMagnitude (Zpos p) (Zpos (Qden r)) in finite true m sh
  end.

(** [x / y] *)
Definition div (x y : number) : number :=
  match x, y with
  | NaN, _ | _, NaN => NaN
  | Inf _, Inf _ => NaN
  | Inf s, _ => Inf (xorb s (sign y))
  | _, Inf s => zero (xorb (sign x) s)
  | _, _ =>
      if isZero (value y) then
        if isZero (value x) then NaN else Inf (xorb (sign x) (sign y))
      else if isZero (value x) then zero (xorb (sign x) (sign y))
      else round64 (value x / value y)
  end.

(** [x + y] on two numbers *)
Definition add (x y : number) : number :=
  match x, y with
  | NaN, _ | _, NaN => NaN
  | Inf s, Inf t => if Bool.eqb s t then Inf s else NaN
  | Inf s, _ => Inf s
  | _, Inf t => Inf t
  | NegZero, NegZero => NegZero
  | NegZero, Fin q => fin q
  | Fin p, NegZero => fin p
  | Fin p, Fin q => round64 (p + q)
  end.

(** unary minus *)
Definition neg (x : number) : number :=
  match x with
  | NaN => NaN
  | Inf s => Inf (negb s)
  | NegZero => Fin 0
  | Fin q => if isZero q then NegZero else fin (- q)
  end.

(** [x - y] *)
Definition sub (x y : number) : number := add x (neg y).

(** [Math.floor(x)] *)
Definition floor (x : number) : number :=
  match x with
  | Fin q => Fin (inject_Z (Qfloor q))
  | _ => x
  end.

(** [x <= y]: false as soon as one side is NaN *)
Definition le (x y : number) : bool :=
  match x, y with
  | NaN, _ | _, NaN => false
  | Inf true, _ => true
  | _, Inf false => true
  | Inf false, _ => false
  | _, Inf true => false
  | _, _ => Qle_bool (value x) (value y)
  end.

(** [x === y] on two numbers: NaN differs from everything, +0 equals -0 *)
Definition strict_eq (x y : number) : bool :=
  match x, y with
  | NaN, _ | _, NaN => false
  | Inf s, Inf t => Bool.eqb s t
  | Inf _, _ | _, Inf _ => false
  | _, _ => Qeq_bool (value x) (value y)
  end.

(** The integer a number stands for, if it is one (-0 is the integer 0). *)
Definition asInteger (x : number) : option Z :=
  match x with
  | NegZero => Some 0%Z
  | Fin q => if (Zpos (Qden (Qred q)) =? 1)%Z then Some (Qnum (Qred q)) else None
  | _ => None
  end.

(** *** Number to string

    [Number::toString] in radix 10 writes the fewest significant digits [s]
    that read back as the same double; with [k] their count and [n] the
    position of the decimal point (s * 10^(n-k) rounds to the value), the
    digits are written plainly when -6 < n <= 21 and in exponent notation
    otherwise. *)

Definition digitsOf (z : Z) : string :=
  NilZero.string_of_uint (N.to_uint (Z.to_N z)).

Fixpoint zeros (n : nat) : string :=
  match n with
  | O => EmptyString
  | S n' => String "0" (zeros n')
  end.

(** [m * 10^e] *)
Definition scale10 (m e : Z) : Q :=
  if (0 <=? e)%Z then inject_Z (m * 10 ^ e) else Qmake m (Z.to_pos (10 ^ (- e))).

(** [num / den] divided by 10^e, as a fraction *)
Definition shifted (num den e : Z) : Z * Z :=
  if (0 <=? e)%Z then (num, (den * 10 ^ e)%Z) else ((num * 10 ^ (- e))%Z, den).

(** least [n'] from [n] on, at most [n + fuel], with num / den < 10^n' *)
Fixpoint decimalExponent (fuel : nat) (num den n : Z) : Z :=
  match fuel with
  | O => n
  | S fuel' =>
      let (a, b) := shifted num den n in
      if (b <=? a)%Z then decimalExponent fuel' num den (n + 1) else n
  end.

(** does [s * 10^e] read back as [num / den]? *)
Definition readsBack (num den s e : Z) : bool :=
  match round64 (scale10 s e) with
  | Fin v => Qeq_bool v (Qmake num (Z.to_pos den))
  | _ => false
  end.

(** the digits of [num / den] at the decimal exponent [e], if some digits
    there read back: the exact ones, or else the nearer of the two
    neighbours that read back *)
Definition digitsAt (num den e : Z) : option Z :=
  let (a, b) := shifted num den e in
  let lo := (a / b)%Z in
  let r := (a mod b)%Z in
  if (r =? 0)%Z then Some lo
  else
    match readsBack num den lo e, readsBack num den (lo + 1) e with
    | true, false => Some lo
    | false, true => Some (lo + 1)%Z
    | true, true =>
        if (2 * r <? b)%Z then Some lo
        else if (b <? 2 * r)%Z then Some (lo + 1)%Z
        else if Z.even lo then Some lo else Some (lo + 1)%Z
    | false, false => None
    end.

(** the fewest digits that read back: from the exponent [e] downwards, one
    more digit at each step *)
Fixpoint shortest (fuel : nat) (num den e : Z) : Z * Z :=
  match fuel with
  | O => let (a, b) := shifted num den e in ((a / b)%Z, e)
  | S fuel' =>
      match digitsAt num den e with
      | Some s => (s, e)
      | None => shortest fuel' num den (e - 1)
      end
  end.

(** strip the trailing zeros of [m], counting them *)
Fixpoint strip (fuel : nat) (m z : Z) : Z * Z :=
  match fuel with
  | O => (m, z)
  | S fuel' =>
      if (m =? 0)%Z then (m, z)
      else if (m mod 10 =? 0)%Z then strip fuel' (m / 10) (z + 1) else (m, z)
  end.

Definition exponentPart (e : Z) : string :=
  "e" ++ (if (e <? 0)%Z then "-" else "+") ++ digitsOf (Z.abs e).

(** a positive double [num / den] in lowest terms *)
Definition positiveToString (num den : Z) : string :=
  let n0 := decimalExponent 5 num den (binaryExponent num den * 30103 / 100000 - 1) in
  let (s0, e0) := shortest 17 num den (n0 - 1) in
  let (s, z) := strip (Z.to_nat (Z.log2 s0) + 1) s0 0 in
  let digits := digitsOf s in
  let k := Z.of_nat (String.length digits) in
  let n := (k + (e0 + z))%Z in
  if (k <=? n)%Z && (n <=? 21)%Z then
    digits ++ zeros (Z.to_nat (n - k))
  else if (0 <? n)%Z && (n <=? 21)%Z then
    substring 0 (Z.to_nat n) digits ++ "." ++
    substring (Z.to_nat n) (Z.to_nat (k - n)) digits
  else if (-6 <? n)%Z && (n <=? 0)%Z then
    "0." ++ zeros (Z.to_nat (- n)) ++ digits
  else if (k =? 1)%Z then
    digits ++ exponentPart (n - 1)
  else
    substring 0 1 digits ++ "." ++ substring 1 (Z.to_nat (k - 1)) digits ++
    exponentPart (n - 1).

Definition toString (x : number) : string :=
  match x with
  | NaN => "NaN"
  | Inf false => "Infinity"
  | Inf true => "-Infinity"
  | NegZero => "0"
  | Fin q =>
      let r := Qred q in
      match Qnum r with
      | Z0 => "0"
      | Zpos p => positiveToString (Zpos p) (Zpos (Qden r))
      | Zneg p => "-" ++ positiveToString (Zpos p) (Zpos (Qden r))
      end
  end.

(** *** String to number

    [Number(string)] follows the StringNumericLiteral grammar: white space
    is trimmed, the empty string is 0, a decimal literal may carry a sign, a
    fraction and an exponent, [Infinity] may carry a sign, and the 0x, 0o and
    0b integer literals take no sign; the value written is rounded to the
    nearest double.  Everything else is NaN.  Strings are
    sequences of char codes below 256, so the white space and line
    terminators are the codes 9 to 13, 32 and 160. *)

Definition code (c : ascii) : Z := Z.of_N (N_of_ascii c).

Definition isWhiteSpace (c : ascii) : bool :=
  let n := code c in
  ((9 <=? n) && (n <=? 13) || (n =? 32) || (n =? 160))%Z.

Fixpoint trimStart (s : string) : string :=
  match s with
  | EmptyString => EmptyString
  | String c s' => if isWhiteSpace c then trimStart s' else s
  end.

Fixpoint trimEnd (s : string) : string :=
  match s with
  | EmptyString => EmptyString
  | String c s' =>
      match trimEnd s' with
      | EmptyString => if isWhiteSpace c then EmptyString else String c EmptyString
      | t => String c t
      end
  end.

Definition digit (radix : Z) (c : ascii) : option Z :=
  let n := code c in
  let d := (if (48 <=? n) && (n <=? 57) then n - 48
            else if (97 <=? n) && (n <=? 122) then n - 87
            else if (65 <=? n) && (n <=? 90) then n - 55
            else radix)%Z in
  if (d <? radix)%Z then Some d else None.

(** the longest prefix of digits: its value on top of [acc], the number of
    digits read on top of [count], and the rest of the string *)
Fixpoint digits (radix : Z) (s : string) (acc count : Z) : Z * Z * string :=
  match s with
  | EmptyString => (acc, count, s)
  | String c s' =>
      match digit radix c with
      | Some d => digits radix s' (acc * radix + d)%Z (count + 1)%Z
      | None => (acc, count, s)
      end
  end.

Definition signOf (s : string) : bool * string :=
  match s with
  | String c t =>
      if Ascii.eqb c "-" then (true, t)
      else if Ascii.eqb c "+" then (false, t)
      else (false, s)
  | EmptyString => (false, s)
  end.

(** an optional ExponentPart that ends the string *)
Definition exponent (s : string) : option Z :=
  match s with
  | EmptyString => Some 0%Z
  | String c s' =>
      if Ascii.eqb c "e" || Ascii.eqb c "E" then
        let (negative, t) := signOf s' in
        match digits 10 t 0 0 with
        | (e, count, EmptyString) =>
            if (0 <? count)%Z then Some (if negative then (- e)%Z else e) else None
        | _ => None
        end
      else None
  end.

(** StrUnsignedDecimalLiteral, [Infinity] apart *)
Definition decimal (s : string) : option Q :=
  let '(i, ni, r) := digits 10 s 0 0 in
  let '(m, nf, r') :=
    match r with
    | String c t => if Ascii.eqb c "." then digits 10 t i 0 else (i, 0%Z, r)
    | EmptyString => (i, 0%Z, r)
    end in
  if (ni + nf =? 0)%Z then None
  else match exponent r' with
       | Some e => Some (scale10 m (e - nf))
       | None => None
       end.

Definition signedDecimal (s : string) : number :=
  let (negative, u) := signOf s in
  if String.eqb u "Infinity" then Inf negative
  else match decimal u with
       | None => NaN
       | Some q => if isZero q then zero negative
                   else round64 (if negative then - q else q)
       end.

Definition nonDecimal (radix : Z) (s : string) : number :=
  match digits radix s 0 0 with
  | (v, count, EmptyString) =>
      if (0 <? count)%Z then round64 (inject_Z v) else NaN
  | _ => NaN
  end.

Definition StringToNumber (str : string) : number :=
  let s := trimEnd (trimStart str) in
  match s with
  | EmptyString => Fin 0
  | String c (String x t) =>
      if negb (Ascii.eqb c "0") then signedDecimal s
      else if Ascii.eqb x "x" || Ascii.eqb x "X" then nonDecimal 16 t
      else if Ascii.eqb x "o" || Ascii.eqb x "O" then nonDecimal 8 t
      else if Ascii.eqb x "b" || Ascii.eqb x "B" then nonDecimal 2 t
      else signedDecimal s
  | _ => signedDecimal s
  end.

(** [Number(value)] applied to a string *)
Definition Number (value : string) : number := StringToNumber value.

End JS.

(** ** The interceptor *)

(** [type Relation = 'first' | 'next' | 'prev' | 'last'] *)
Inductive Relation : Type := first | next | prev | last.

Definition Relation_eqb (a b : Relation) : bool :=
  match a, b with
  | first, first | next, next | prev, prev | last, last => true
  | _, _ => false
  end.

(** the string a relation is at run time *)
Definition relationName (rel : Relation) : string :=
  match rel with
  | first => "first"
  | next => "next"
  | prev => "prev"
  | last => "last"
  end.

(** [interface LinkOptions] *)
Module LinkOptions.
Record t : Type := make {
  page : string;
  limit : string;
  resourceUrl : string;
  totalDocs : JS.number
}.
End LinkOptions.

(** [formatLinkHeader.Link], with the four properties [buildLink] gives it *)
Module Link.
Record t : Type := make {
  url : string;
  rel : Relation;
  per_page : string;
  page : string
}.

(** [link.url = v] *)
Definition set_url (link : t) (v : string) : t :=
  make v (rel link) (per_page link) (page link).

(** [link.page = v] *)
Definition set_page (link : t) (v : string) : t :=
  make (url link) (rel link) (per_page link) v.
End Link.

(** [formatLinkHeader.Links]: an object keyed by relation, its properties
    kept in insertion order. *)
Module Links.
Definition t : Type := list (Relation * Link.t).

(** [links[rel]] *)
Fixpoint get (rel : Relation) (links : t) : option Link.t :=
  match links with
  | [] => None
  | (r, link) :: links' => if Relation_eqb rel r then Some link else get rel links'
  end.

(** [links[rel] = link]: an existing property keeps its place, a new one
    goes last *)
Fixpoint set (rel : Relation) (link : Link.t) (links : t) : t :=
  match links with
  | [] => [(rel, link)]
  | (r, l) :: links' =>
      if Relation_eqb rel r then (r, link) :: links' else (r, l) :: set rel link links'
  end.

(** [Object.keys(links)] *)
Definition keys (links : t) : list Relation := map fst links.
End Links.

Module LinkHeaderInterceptor.
Import JS.

(** [buildLink], lines 95-128 *)
Definition buildLink (rel : Relation) (linkOptions : LinkOptions.t) : Link.t :=
  let page := Number (LinkOptions.page linkOptions) in
  let link :=
    Link.make (LinkOptions.resourceUrl linkOptions) rel
              (LinkOptions.limit linkOptions) (LinkOptions.page linkOptions) in
  let link :=
    match rel with
    | first => Link.set_url link (Link.url link ++ "?page=1")
    | prev =>
        let link := Link.set_page link (toString (sub page one)) in
        Link.set_url link (Link.url link ++ "?page=" ++ toString (sub page one))
    | last =>
        Link.set_url link
          (Link.url link ++ "?page=" ++
           toString (add (floor (div (LinkOptions.totalDocs linkOptions)
                                     (Number (LinkOptions.limit linkOptions))))
                         one))
    | next =>
        let link := Link.set_page link (toString (add page one)) in
        Link.set_url link (Link.url link ++ "?page=" ++ toString (add page one))
    end in
  Link.set_url link (Link.url link ++ "&per_page=" ++ LinkOptions.limit linkOptions).

(** [setLinkHeader], line 71 *)
Definition hasNextPage (linkOptions : LinkOptions.t) : bool :=
  let page := Number (LinkOptions.page linkOptions) in
  le page (floor (div (LinkOptions.totalDocs linkOptions)
                      (Number (LinkOptions.limit linkOptions)))).

(** [setLinkHeader], line 72 *)
Definition isFirstPage (linkOptions : LinkOptions.t) : bool :=
  let page := Number (LinkOptions.page linkOptions) in
  strict_eq page one.

(** [setLinkHeader], lines 74-85: the object handed to [formatLinkHeader] *)
Definition linkObject (linkOptions : LinkOptions.t) : Links.t :=
  let linkObject :=
    [(first, buildLink first linkOptions); (last, buildLink last linkOptions)] in
  let linkObject :=
    if hasNextPage linkOptions
    then Links.set next (buildLink next linkOptions) linkObject
    else linkObject in
  let linkObject :=
    if negb (isFirstPage linkOptions)
    then Links.set prev (buildLink prev linkOptions) linkObject
    else linkObject in
  linkObject.

Definition quote : string := String "034"%char EmptyString.

(** Modelled from the spec: the third-party serializer [formatLinkHeader] of
    the format-link-header package, which is no part of the repository.  Each
    entry is written as <url>; rel=.; per_page=.; page=. with quoted values,
    and the entries are separated by a comma and a space. *)
Definition formatLink (link : Link.t) : string :=
  "<" ++ Link.url link ++ ">; rel=" ++ quote ++ relationName (Link.rel link) ++ quote ++
  "; per_page=" ++ quote ++ Link.per_page link ++ quote ++
  "; page=" ++ quote ++ Link.page link ++ quote.

Definition formatLinkHeader (links : Links.t) : string :=
  String.concat ", " (map (fun entry => formatLink (snd entry)) links).

(** [setLinkHeader], lines 69-88 *)
Definition setLinkHeader (linkOptions : LinkOptions.t) : string :=
  formatLinkHeader (linkObject linkOptions).

(** the page number [z] as it is printed into a link *)
Definition pageString (z : Z) : string := toString (Fin (inject_Z z)).

(** the URL of the link to page [p] *)
Definition pageUrl (linkOptions : LinkOptions.t) (p : string) : string :=
  LinkOptions.resourceUrl linkOptions ++ "?page=" ++ p ++
  "&per_page=" ++ LinkOptions.limit linkOptions.

(** the four scenarios of the specification, on the resource /items *)
Definition scenarioA : LinkOptions.t := LinkOptions.make "1" "10" "/items" (Fin 25).
Definition scenarioB : LinkOptions.t := LinkOptions.make "3" "10" "/items" (Fin 25).
Definition scenarioC : LinkOptions.t := LinkOptions.make "1" "100" "/items" (Fin 0).
Definition scenarioD : LinkOptions.t := LinkOptions.make "1" "10" "/items" (Fin 10).

(** [needle] occurs in [s] *)
Definition occursIn (needle s : string) : Prop :=
  exists before after, s = before ++ needle ++ after.

End LinkHeaderInterceptor.

(** ** The header as a list of entries *)
Module Header.
Import LinkHeaderInterceptor.

(** [Object.values(links)]: the entries in the order of their insertion *)
Definition values (links : Links.t) : list Link.t := map snd links.

(** the header that serializes [entries], one after the other *)
Definition headerOf (entries : list Link.t) : string :=
  String.concat ", " (map formatLink entries).

End Header.

(** ** The request pipeline around [setLinkHeader] *)

(** The part of the Express request [intercept] reads: the URL and the two
    query parameters, each of which may be missing. *)
Module Request.
Record t : Type := make {
  url : string;
  query_page : option string;
  query_per_page : option string
}.
End Request.

(** [interface Data<T>] *)
Module Data.
Record t (T : Type) : Type := make {
  resource : list T;
  totalDocs : JS.number
}.
Arguments make {T} _ _.
Arguments resource {T} _.
Arguments totalDocs {T} _.
End Data.

(** The outgoing response of Node: whether its head has been sent, and its
    headers, kept under their lower-cased name so that setting a header
    replaces the one of the same name whatever its case. *)
Module Response.
Record t : Type := make {
  headersSent : bool;
  headers : list (string * string)
}.

(** [toLowerCase] on one char code below 256: A to Z, and the accented
    capitals 192 to 222 but for the multiplication sign 215 *)
Definition lowerChar (c : ascii) : ascii :=
  let n := JS.code c in
  if ((65 <=? n) && (n <=? 90) ||
      (192 <=? n) && (n <=? 222) && negb (n =? 215))%Z
  then ascii_of_N (N_of_ascii c + 32) else c.

Fixpoint toLowerCase (s : string) : string :=
  match s with
  | EmptyString => EmptyString
  | String c s' => String (lowerChar c) (toLowerCase s')
  end.

Fixpoint forallChars (p : ascii -> bool) (s : string) : bool :=
  match s with
  | EmptyString => true
  | String c s' => p c && forallChars p s'
  end.

(** the characters of an HTTP token: letters, digits and
    ! # $ % & ' * + - . ^ _ ` | ~ *)
Definition tokenChar (c : ascii) : bool :=
  let n := JS.code c in
  ((48 <=? n) && (n <=? 57) || (65 <=? n) && (n <=? 90) ||
   (97 <=? n) && (n <=? 122) ||
   (n =? 33) || (35 <=? n) && (n <=? 39) || (n =? 42) || (n =? 43) ||
   (n =? 45) || (n =? 46) || (94 <=? n) && (n <=? 96) || (n =? 124) ||
   (n =? 126))%Z.

(** a header name Node accepts *)
Definition validName (name : string) : bool :=
  negb (String.eqb name EmptyString) && forallChars tokenChar name.

(** the characters Node accepts in a header value: the tab and the codes
    32 to 126 and 128 to 255 *)
Definition valueChar (c : ascii) : bool :=
  let n := JS.code c in
  ((n =? 9) || (32 <=? n) && (n <=? 126) || (128 <=? n) && (n <=? 255))%Z.

Definition validValue (value : string) : bool := forallChars valueChar value.

Fixpoint lookup (key : string) (entries : list (string * string)) : option string :=
  match entries with
  | [] => None
  | (k, v) :: entries' => if String.eqb key k then Some v else lookup key entries'
  end.

Fixpoint store (key value : string) (entries : list (string * string))
  : list (string * string) :=
  match entries with
  | [] => [(key, value)]
  | (k, v) :: entries' =>
      if String.eqb key k then (k, value) :: entries'
      else (k, v) :: store key value entries'
  end.

(** [response.getHeader(name)] *)
Definition getHeader (name : string) (response : t) : option string :=
  lookup (toLowerCase name) (headers response).

(** [response.setHeader(name, value)]: [None] when Node throws, which it
    does once the head is sent (ERR_HTTP_HEADERS_SENT), for a name that is
    no token (ERR_INVALID_HTTP_TOKEN) and for a value with a character it
    does not accept (ERR_INVALID_CHAR) *)
Definition setHeader (name value : string) (response : t) : option t :=
  if headersSent response then None
  else if negb (validName name) then None
  else if negb (validValue value) then None
  else Some (make false (store (toLowerCase name) value (headers response))).
End Response.

Module Intercept.
Import JS LinkHeaderInterceptor.

(** [s.split(sep)] for a separator of one character *)
Fixpoint split (sep : ascii) (s : string) : list string :=
  match s with
  | EmptyString => [EmptyString]
  | String c s' =>
      if Ascii.eqb c sep then EmptyString :: split sep s'
      else match split sep s' with
           | piece :: pieces => String c piece :: pieces
           | [] => [String c EmptyString]
           end
  end.

(** [value ?? fallback] *)
Definition nullish {A : Type} (value : option A) (fallback : A) : A :=
  match value with
  | Some v => v
  | None => fallback
  end.

(** [intercept], lines 46-48 and 53-58: the options handed to
    [setLinkHeader] for one value of the response stream *)
Definition linkOptionsOf {T : Type} (request : Request.t) (data : Data.t T)
  : LinkOptions.t :=
  let resourceUrl := hd EmptyString (split "?" (Request.url request)) in
  let page := nullish (Request.query_page request) "1" in
  let limit := nullish (Request.query_per_page request) "100" in
  LinkOptions.make page limit resourceUrl (Data.totalDocs data).

(** What the mapped stream has done when it ends: the response as the
    callbacks left it, the values it emitted, and whether it ended in an
    error. *)
Record outcome : Type := Outcome {
  response : Response.t;
  emitted : list unit;
  failed : bool
}.

(** [intercept], lines 43-63.  The stream [next.handle()] is the list of
    the values it emits.  For each of them the callback of [map] sets the
    header on the one response object of the request and the mapped stream
    emits [undefined]; when [setHeader] throws, the mapped stream ends in
    that error and the values that follow are not looked at. *)
Fixpoint intercept {T : Type} (request : Request.t) (handle : list (Data.t T))
    (response : Response.t) : outcome :=
  match handle with
  | [] => Outcome response [] false
  | data :: handle' =>
      let linkHeader := setLinkHeader (linkOptionsOf request data) in
      match Response.setHeader "Link" linkHeader response with
      | None => Outcome response [] true
      | Some response' =>
          let rest := intercept request handle' response' in
          Outcome (Intercept.response rest) (tt :: emitted rest) (failed rest)
      end
  end.

(** [linkOptions] with another page string *)
Definition withPage (linkOptions : LinkOptions.t) (page : string) : LinkOptions.t :=
  LinkOptions.make page (LinkOptions.limit linkOptions)
                   (LinkOptions.resourceUrl linkOptions)
                   (LinkOptions.totalDocs linkOptions).

(** decimal digits *)
Definition isDigit (c : ascii) : bool :=
  let n := code c in ((48 <=? n) && (n <=? 57))%Z.

Fixpoint allDigits (s : string) : bool :=
  match s with
  | EmptyString => true
  | String c s' => isDigit c && allDigits s'
  end.

(** [c] occurs in [s] *)
Fixpoint hasChar (c : ascii) (s : string) : bool :=
  match s with
  | EmptyString => false
  | String x s' => Ascii.eqb x c || hasChar c s'
  end.

End Intercept.

(** ** Facts about the number primitives *)
Module JSFacts.
Import JS.
Local Open Scope Z_scope.

Lemma Qred_idem (q : Q) : Qred (Qred q) = Qred q.
Proof. apply Qred_complete, Qred_correct. Qed.

Lemma Qred_inject_Z (z : Z) : Qred (inject_Z z) = inject_Z z.
Proof.
  pose proof (Qred_correct (inject_Z z)) as H.
  pose proof (gcd_Qred (inject_Z z)) as G.
  destruct (Qred (inject_Z z)) as [n d].
  unfold Qeq in H. simpl in H, G. rewrite Z.mul_1_r in H. subst n.
  rewrite Z.gcd_comm, Z.mul_comm, Z.gcd_mul_diag_l in G by lia.
  injection G as ->. rewrite Z.mul_1_r. reflexivity.
Qed.

Lemma asInteger_inject_Z (z : Z) : asInteger (Fin (inject_Z z)) = Some z.
Proof. unfold asInteger. rewrite Qred_inject_Z. reflexivity. Qed.

(** A finite number that stands for the integer [z] reduces to [z]. *)
Lemma asInteger_Fin_Qred (q : Q) (z : Z) :
  asInteger (Fin q) = Some z -> Qred q = inject_Z z.
Proof.
  unfold asInteger. destruct (Qred q) as [n d]. simpl.
  destruct d; try discriminate.
  intros H. injection H as ->. reflexivity.
Qed.

Lemma asInteger_Fin_Qeq (q : Q) (z : Z) :
  asInteger (Fin q) = Some z -> q == inject_Z z.
Proof.
  intros H. rewrite <- (Qred_correct q), (asInteger_Fin_Qred _ _ H). reflexivity.
Qed.

Lemma asInteger_of_Qeq (q : Q) (z : Z) :
  q == inject_Z z -> asInteger (Fin q) = Some z.
Proof.
  intros H. unfold asInteger.
  rewrite (Qred_complete _ _ H), Qred_inject_Z. reflexivity.
Qed.

Lemma asInteger_fin (q : Q) (z : Z) :
  q == inject_Z z -> asInteger (fin q) = Some z.
Proof.
  intros H. unfold fin. apply asInteger_of_Qeq. now rewrite Qred_correct.
Qed.

(** The shapes an integer-valued number can have. *)
Lemma asInteger_cases (x : number) (z : Z) :
  asInteger x = Some z ->
  (x = NegZero /\ z = 0) \/ (exists q, x = Fin q /\ q == inject_Z z).
Proof.
  destruct x as [ | s | | q ]; simpl; try discriminate.
  - intros H. injection H as <-. now left.
  - intros H. right. exists q. split; [ reflexivity | ].
    now apply asInteger_Fin_Qeq.
Qed.

Lemma value_asInteger (x : number) (z : Z) :
  asInteger x = Some z -> value x == inject_Z z.
Proof.
  intros H. destruct (asInteger_cases _ _ H) as [[-> ->] | [q [-> Hq]]]; simpl.
  - reflexivity.
  - exact Hq.
Qed.

Lemma isZero_Qeq (q : Q) (z : Z) :
  q == inject_Z z -> isZero q = (z =? 0).
Proof.
  unfold isZero, Qeq. simpl. intros H.
  destruct (Z.eqb_spec (Qnum q) 0) as [E | E], (Z.eqb_spec z 0) as [F | F];
    try reflexivity; exfalso.
  - rewrite E in H. simpl in H. destruct z; try lia; discriminate.
  - subst z. rewrite Z.mul_1_r in H. auto.
Qed.

Lemma sign_Qeq (q : Q) (z : Z) :
  q == inject_Z z -> sign (Fin q) = (z <? 0).
Proof.
  unfold Qeq. simpl. intros H. rewrite Z.mul_1_r in H.
  destruct (Z.ltb_spec (Qnum q) 0), (Z.ltb_spec z 0); try reflexivity; exfalso; nia.
Qed.

(** printing depends on the value only *)
Lemma toString_asInteger (x : number) (z : Z) :
  asInteger x = Some z -> toString x = toString (Fin (inject_Z z)).
Proof.
  destruct x as [ | s | | q ]; try (simpl; discriminate); intros H.
  - injection H as <-. reflexivity.
  - unfold toString.
    rewrite (asInteger_Fin_Qred _ _ H), Qred_inject_Z. reflexivity.
Qed.


(** *** Rounding *)

Lemma roundHalfEven_bounds (n d : Z) :
  0 <= n -> 0 < d ->
  n / d <= roundHalfEven n d <= n / d + 1 /\
  (roundHalfEven n d = n / d + 1 -> d <= 2 * (n mod d)) /\
  (roundHalfEven n d = n / d -> 2 * (n mod d) <= d).
Proof.
  intros Hn Hd. unfold roundHalfEven.
  destruct (Z.ltb_spec (2 * (n mod d)) d) as [A | A].
  - repeat split; lia.
  - destruct (Z.ltb_spec d (2 * (n mod d))) as [B | B].
    + repeat split; lia.
    + destruct (Z.even (n / d)); repeat split; lia.
Qed.

Lemma roundHalfEven_exact (a d : Z) : 0 < d -> roundHalfEven (a * d) d = a.
Proof.
  intros Hd. unfold roundHalfEven.
  rewrite Z.div_mul, Z.mod_mul by lia.
  now replace (2 * 0 <? d) with true by (symmetry; apply Z.ltb_lt; lia).
Qed.

(** the exponent brackets the fraction between two powers of two *)
Lemma scaled_log2 (n d k : Z) :
  0 < n -> 0 < d -> 0 <= k -> d <= n * 2 ^ k ->
  let a := Z.log2 (n * 2 ^ k / d) in
  0 <= a /\ 2 ^ a * d <= n * 2 ^ k < 2 ^ (a + 1) * d.
Proof.
  intros Hn Hd Hk Hs a.
  assert (P : 0 < 2 ^ k) by (apply Z.pow_pos_nonneg; lia).
  assert (W : 1 <= n * 2 ^ k / d) by (apply Z.div_le_lower_bound; lia).
  destruct (Z.log2_spec (n * 2 ^ k / d) ltac:(lia)) as [L U]. fold a in L, U.
  pose proof (Z.mul_div_le (n * 2 ^ k) d Hd) as M.
  pose proof (Z.mul_succ_div_gt (n * 2 ^ k) d Hd) as M'.
  split; [ apply Z.log2_nonneg | ].
  replace (2 ^ (a + 1)) with (2 ^ Z.succ a) in * by (f_equal; lia).
  split; nia.
Qed.

Lemma scale_is_enough (n d : Z) :
  0 < n -> 0 < d ->
  let k := Z.max 0 (Z.log2 d + 1 - Z.log2 n) in
  0 <= k /\ d <= n * 2 ^ k.
Proof.
  intros Hn Hd k. split; [ lia | ].
  destruct (Z.log2_spec n Hn) as [Ln Un].
  destruct (Z.log2_spec d Hd) as [Ld Ud].
  pose proof (Z.log2_nonneg n) as Nn. pose proof (Z.log2_nonneg d) as Nd.
  assert (E : 2 ^ Z.succ (Z.log2 d) <= 2 ^ Z.log2 n * 2 ^ k).
  { rewrite <- Z.pow_add_r by lia. apply Z.pow_le_mono_r; lia. }
  assert (P : 0 < 2 ^ k) by (apply Z.pow_pos_nonneg; lia).
  nia.
Qed.

(** [binaryExponent]: 2^e <= n / d < 2^(e+1), written without fractions
    for any power of two 2^j with j >= -e *)
Lemma binaryExponent_spec (n d j : Z) :
  0 < n -> 0 < d -> 0 <= j -> 0 <= binaryExponent n d + j ->
  2 ^ (binaryExponent n d + j) * d <= n * 2 ^ j
  < 2 ^ (binaryExponent n d + j + 1) * d.
Proof.
  intros Hn Hd Hj He. unfold binaryExponent in *.
  destruct (scale_is_enough n d Hn Hd) as [Hk Hs].
  set (k := Z.max 0 (Z.log2 d + 1 - Z.log2 n)) in *.
  destruct (scaled_log2 n d k Hn Hd Hk Hs) as [Ha [L U]].
  set (a := Z.log2 (n * 2 ^ k / d)) in *.
  assert (Pk : 0 < 2 ^ k) by (apply Z.pow_pos_nonneg; lia).
  assert (Pj : 0 < 2 ^ j) by (apply Z.pow_pos_nonneg; lia).
  (* compare after scaling both sides by 2^(j+k) *)
  assert (X : 2 ^ (a - k + j) * 2 ^ k = 2 ^ a * 2 ^ j).
  { rewrite <- !Z.pow_add_r by lia. f_equal. lia. }
  assert (Y : 2 ^ (a - k + j + 1) * 2 ^ k = 2 ^ (a + 1) * 2 ^ j).
  { rewrite <- !Z.pow_add_r by lia. f_equal. lia. }
  split.
  - apply Z.mul_le_mono_pos_r with (p := 2 ^ k); [ exact Pk | ].
    replace (2 ^ (a - k + j) * d * 2 ^ k) with (2 ^ a * d * 2 ^ j) by nia.
    nia.
  - apply Z.mul_lt_mono_pos_r with (p := 2 ^ k); [ exact Pk | ].
    replace (2 ^ (a - k + j + 1) * d * 2 ^ k) with (2 ^ (a + 1) * d * 2 ^ j) by nia.
    nia.
Qed.

Lemma binaryExponent_lower (n d : Z) :
  0 < n -> 0 < d -> - (Z.log2 d + 1) <= binaryExponent n d.
Proof.
  intros Hn Hd. unfold binaryExponent.
  pose proof (Z.log2_nonneg (n * 2 ^ Z.max 0 (Z.log2 d + 1 - Z.log2 n) / d)).
  pose proof (Z.log2_nonneg n). pose proof (Z.log2_nonneg d). lia.
Qed.

Lemma round64_Qeq (q q' : Q) : q == q' -> round64 q = round64 q'.
Proof. intros H. unfold round64. now rewrite (Qred_complete _ _ H). Qed.

Lemma scale2_neg (m sh : Z) :
  sh <= 0 -> scale2 (m * 2 ^ (- sh)) sh == inject_Z m.
Proof.
  intros H. unfold scale2.
  assert (P : 0 < 2 ^ (- sh)) by (apply Z.pow_pos_nonneg; lia).
  destruct (Z.leb_spec 0 sh) as [A | A].
  - replace sh with 0 by lia. simpl. now rewrite !Z.mul_1_r.
  - unfold Qeq. simpl. rewrite Z2Pos.id by lia. lia.
Qed.

(** a positive integer below 2^53 is its own rounding *)
Lemma roundMagnitude_integer (z : Z) :
  0 < z < 2 ^ 53 ->
  let (m, sh) := roundMagnitude z 1 in
  m <> 0 /\ Z.log2 m + sh < 1024 /\ scale2 m sh == inject_Z z.
Proof.
  intros [Hz Bz]. unfold roundMagnitude.
  pose proof (binaryExponent_lower z 1 Hz ltac:(lia)) as Lo.
  change (Z.log2 1) with 0 in Lo.
  pose proof (binaryExponent_spec z 1 1 Hz ltac:(lia) ltac:(lia) ltac:(lia)) as [L U].
  set (e := binaryExponent z 1) in *.
  change (2 ^ 1) with 2 in L, U.
  assert (He : 0 <= e).
  { destruct (Z.eq_dec e (-1)) as [E | E]; [ | lia ].
    rewrite E in U. simpl in U. lia. }
  assert (L' : 2 ^ e <= z).
  { replace (e + 1) with (Z.succ e) in L by lia.
    rewrite Z.pow_succ_r in L by lia. lia. }
  assert (Ue : e <= 52).
  { assert (2 ^ e < 2 ^ 53) by lia.
    apply Z.pow_lt_mono_r_iff in H; lia. }
  replace (Z.max e (-1022) - 52) with (e - 52) by lia.
  replace (Z.max 0 (- (e - 52))) with (- (e - 52)) by lia.
  replace (Z.max 0 (e - 52)) with 0 by lia.
  change (1 * 2 ^ 0) with 1.
  pose proof (roundHalfEven_exact (z * 2 ^ (- (e - 52))) 1 ltac:(lia)) as R.
  rewrite Z.mul_1_r in R. rewrite !R.
  assert (P : 0 < 2 ^ (- (e - 52))) by (apply Z.pow_pos_nonneg; lia).
  repeat split.
  - nia.
  - rewrite Z.log2_mul_pow2 by lia.
    assert (Z.log2 z <= Z.log2 (2 ^ 53)) by (apply Z.log2_le_mono; lia).
    rewrite Z.log2_pow2 in H by lia. lia.
  - apply scale2_neg. lia.
Qed.

(** An integer of magnitude 2^53 or below is left alone by the rounding. *)
Lemma round64_inject_Z (z : Z) :
  - 2 ^ 53 <= z <= 2 ^ 53 -> round64 (inject_Z z) = Fin (inject_Z z).
Proof.
  intros B.
  destruct (Z.eq_dec z (2 ^ 53)) as [-> | N1]; [ vm_compute; reflexivity | ].
  destruct (Z.eq_dec z (- 2 ^ 53)) as [-> | N2]; [ vm_compute; reflexivity | ].
  unfold round64. rewrite Qred_inject_Z. cbn [inject_Z Qnum Qden].
  destruct z as [ | p | p ].
  - reflexivity.
  - pose proof (roundMagnitude_integer (Z.pos p) ltac:(lia)) as H.
    destruct (roundMagnitude (Z.pos p) 1) as [m sh].
    destruct H as [M [O V]]. unfold finite.
    replace (m =? 0) with false by (symmetry; now apply Z.eqb_neq).
    replace (1024 <=? Z.log2 m + sh) with false by (symmetry; apply Z.leb_gt; lia).
    now rewrite (Qred_complete _ _ V), Qred_inject_Z.
  - pose proof (roundMagnitude_integer (Z.pos p) ltac:(lia)) as H.
    destruct (roundMagnitude (Z.pos p) 1) as [m sh].
    destruct H as [M [O V]]. unfold finite.
    replace (m =? 0) with false by (symmetry; now apply Z.eqb_neq).
    replace (1024 <=? Z.log2 m + sh) with false by (symmetry; apply Z.leb_gt; lia).
    assert (V' : - scale2 m sh == inject_Z (Z.neg p)).
    { rewrite V. reflexivity. }
    now rewrite (Qred_complete _ _ V'), Qred_inject_Z.
Qed.

(** The mantissa of a quotient of two integers up to 2^53 that is no
    integer lies strictly between the two integers around the quotient. *)
Lemma mantissa_between (n d j : Z) :
  0 < n <= 2 ^ 53 -> 0 < d <= 2 ^ 53 -> n mod d <> 0 -> 0 <= j ->
  2 ^ 52 * d <= n * 2 ^ j < 2 ^ 53 * d ->
  n / d * 2 ^ j < roundHalfEven (n * 2 ^ j) d < (n / d + 1) * 2 ^ j /\
  2 ^ 52 <= roundHalfEven (n * 2 ^ j) d <= 2 ^ 53.
Proof.
  intros [Hn Bn] [Hd Bd] Hr Hj [L U].
  assert (PS : 0 < 2 ^ j) by (apply Z.pow_pos_nonneg; lia).
  set (S := 2 ^ j) in *.
  pose proof (Z.div_mod n d ltac:(lia)) as Dn.
  pose proof (Z.mod_pos_bound n d Hd) as Rn.
  set (q := n / d) in *. set (r := n mod d) in *.
  assert (D2 : d < 2 * S).
  { assert (d <= 2 * S) by nia.
    destruct (Z.eq_dec d (2 * S)) as [E | E]; [ exfalso | lia ].
    assert (n = 2 ^ 53) by nia.
    assert (J : j + 1 <= 53).
    { assert (2 ^ (j + 1) <= 2 ^ 53).
      { replace (j + 1) with (Z.succ j) by lia. rewrite Z.pow_succ_r by lia.
        fold S. lia. }
      apply Z.pow_le_mono_r_iff in H1; lia. }
    apply Hr. unfold r. rewrite H0, E. unfold S.
    replace (2 * 2 ^ j) with (2 ^ (j + 1))
      by (replace (j + 1) with (Z.succ j) by lia; now rewrite Z.pow_succ_r by lia).
    replace 53 with ((52 - j) + (j + 1)) at 1 by lia.
    rewrite Z.pow_add_r by lia. apply Z.mod_mul.
    assert (0 < 2 ^ (j + 1)) by (apply Z.pow_pos_nonneg; lia). lia. }
  pose proof (roundHalfEven_bounds (n * S) d ltac:(nia) Hd) as [[B1 B2] [Up Dn']].
  pose proof (Z.div_mod (n * S) d ltac:(lia)) as DS.
  pose proof (Z.mod_pos_bound (n * S) d Hd) as RS.
  set (m := roundHalfEven (n * S) d) in *.
  set (F := n * S / d) in *. set (rho := (n * S) mod d) in *.
  assert (FA : q * S <= F).
  { apply Z.div_le_lower_bound; [ lia | nia ]. }
  assert (FB : F < (q + 1) * S).
  { apply Z.div_lt_upper_bound; [ lia | nia ]. }
  assert (F52 : 2 ^ 52 <= F) by (apply Z.div_le_lower_bound; lia).
  assert (F53 : F < 2 ^ 53) by (apply Z.div_lt_upper_bound; lia).
  repeat split; try lia.
  - destruct (Z.eq_dec m (q * S)) as [E | E]; [ exfalso | lia ].
    assert (m = F) by lia. specialize (Dn' H).
    assert (rho = r * S) by nia. nia.
  - destruct (Z.eq_dec m (F + 1)) as [E | E]; [ | lia ].
    specialize (Up E).
    destruct (Z.eq_dec (F + 1) ((q + 1) * S)) as [E' | E']; [ exfalso | lia ].
    assert (rho = d - S * (d - r)) by nia. nia.
Qed.

Lemma scale2_value (m sh : Z) :
  sh <= 0 -> scale2 m sh == Qmake m (Z.to_pos (2 ^ (- sh))).
Proof.
  intros H. unfold scale2.
  destruct (Z.leb_spec 0 sh) as [A | A]; [ | reflexivity ].
  replace sh with 0 by lia. simpl. unfold Qeq. simpl. lia.
Qed.

(** what [Qred] leaves of a fraction of two positive integers *)
Lemma Qred_fraction (t l : Z) :
  0 < t -> 0 < l ->
  exists n d : positive,
    Qred (Qmake t (Z.to_pos l)) = Qmake (Z.pos n) d /\
    Z.pos n <= t /\ Z.pos d <= l /\
    Z.pos n / Z.pos d = t / l /\
    (Z.pos n mod Z.pos d = 0 <-> t mod l = 0).
Proof.
  intros Ht Hl.
  pose proof (Qred_correct (Qmake t (Z.to_pos l))) as C.
  pose proof (gcd_Qred (Qmake t (Z.to_pos l))) as G.
  destruct (Qred (Qmake t (Z.to_pos l))) as [n d].
  unfold Qeq in C. cbn [Qnum Qden] in C, G. rewrite Z2Pos.id in C by lia.
  assert (Hn : 0 < n) by nia.
  destruct n as [ | n | n ]; try lia.
  exists n, d. split; [ reflexivity | ].
  assert (Dl : (Z.pos d | l)).
  { apply Z.gauss with (m := Z.pos n).
    - exists t. lia.
    - now rewrite Z.gcd_comm. }
  destruct Dl as [g Eg].
  assert (Hg : 0 < g) by nia.
  assert (Et : t = Z.pos n * g) by nia.
  repeat split.
  - nia.
  - nia.
  - rewrite Et, Eg. rewrite (Z.mul_comm g). now rewrite Z.div_mul_cancel_r by lia.
  - intros M. rewrite Et, Eg, (Z.mul_comm g).
    rewrite Z.mul_mod_distr_r by lia. now rewrite M.
  - intros M. rewrite Et, Eg, (Z.mul_comm g) in M.
    rewrite Z.mul_mod_distr_r in M by lia. nia.
Qed.

(** The quotient of two positive integers up to 2^53 that is no integer
    rounds to a double strictly between the integers around it, under
    either sign. *)
Lemma round64_quotient (t l : Z) (negative : bool) :
  0 < t <= 2 ^ 53 -> 0 < l <= 2 ^ 53 -> t mod l <> 0 ->
  exists v : Q,
    round64 (if negative then (- Qmake t (Z.to_pos l))%Q else Qmake t (Z.to_pos l))
    = Fin (if negative then (- v)%Q else v) /\
    (inject_Z (t / l) < v)%Q /\ (v < inject_Z (t / l + 1))%Q.
Proof.
  intros [Ht Bt] [Hl Bl] Hr.
  destruct (Qred_fraction t l Ht Hl) as [n [d [R [Ln [Ld [Eq Em]]]]]].
  assert (Hr' : Z.pos n mod Z.pos d <> 0) by (intros M; now apply Hr, Em).
  assert (D2 : 2 <= Z.pos d).
  { destruct (Z.eq_dec (Z.pos d) 1) as [E | E]; [ | lia ].
    exfalso. apply Hr'. rewrite E. apply Z.mod_1_r. }
  pose proof (binaryExponent_lower (Z.pos n) (Z.pos d) ltac:(lia) ltac:(lia)) as Lo.
  assert (Lg : Z.log2 (Z.pos d) <= 53).
  { assert (Z.log2 (Z.pos d) <= Z.log2 (2 ^ 53)) by (apply Z.log2_le_mono; lia).
    now rewrite Z.log2_pow2 in H by lia. }
  set (e := binaryExponent (Z.pos n) (Z.pos d)) in *.
  assert (Ue : e <= 52).
  { pose proof (binaryExponent_spec (Z.pos n) (Z.pos d) 54
                  ltac:(lia) ltac:(lia) ltac:(lia) ltac:(fold e; lia)) as [L _].
    fold e in L.
    assert (A : 2 ^ (e + 54) * 2 <= 2 ^ 53 * 2 ^ 54).
    { assert (0 < 2 ^ (e + 54)) by (apply Z.pow_pos_nonneg; lia). nia. }
    replace (2 ^ (e + 54) * 2) with (2 ^ (e + 55)) in A
      by (replace (e + 55) with (Z.succ (e + 54)) by lia;
          rewrite Z.pow_succ_r by lia; lia).
    rewrite <- Z.pow_add_r in A by lia.
    apply Z.pow_le_mono_r_iff in A; lia. }
  pose proof (binaryExponent_spec (Z.pos n) (Z.pos d) (52 - e)
                ltac:(lia) ltac:(lia) ltac:(lia) ltac:(fold e; lia)) as B.
  fold e in B. replace (e + (52 - e)) with 52 in B by lia.
  replace (52 + 1) with 53 in B by lia.
  pose proof (mantissa_between (Z.pos n) (Z.pos d) (52 - e)
                ltac:(lia) ltac:(lia) Hr' ltac:(lia) B) as [[M1 M2] [M3 M4]].
  set (m := roundHalfEven (Z.pos n * 2 ^ (52 - e)) (Z.pos d)) in *.
  assert (RM : roundMagnitude (Z.pos n) (Z.pos d) = (m, e - 52)).
  { unfold roundMagnitude. fold e.
    replace (Z.max e (-1022) - 52) with (e - 52) by lia.
    replace (Z.max 0 (- (e - 52))) with (52 - e) by lia.
    replace (Z.max 0 (e - 52)) with 0 by lia.
    now rewrite Z.mul_1_r. }
  assert (PS : 0 < 2 ^ (52 - e)) by (apply Z.pow_pos_nonneg; lia).
  assert (FM : forall s, finite s m (e - 52) =
                         Fin (Qred (if s then (- scale2 m (e - 52))%Q
                                    else scale2 m (e - 52)))).
  { intros s. unfold finite.
    replace (m =? 0) with false by (symmetry; apply Z.eqb_neq; lia).
    assert (Z.log2 m <= Z.log2 (2 ^ 53)) by (apply Z.log2_le_mono; lia).
    rewrite Z.log2_pow2 in H by lia.
    now replace (1024 <=? Z.log2 m + (e - 52)) with false
      by (symmetry; apply Z.leb_gt; lia). }
  exists (Qred (scale2 m (e - 52))).
  assert (V : Qred (scale2 m (e - 52)) == Qmake m (Z.to_pos (2 ^ (52 - e)))).
  { rewrite Qred_correct, scale2_value by lia.
    now replace (- (e - 52)) with (52 - e) by lia. }
  repeat split.
  - unfold round64. destruct negative.
    + rewrite Qred_opp, R. cbn [Qopp Qnum Qden Z.opp]. rewrite RM, FM.
      now rewrite Qred_opp.
    + rewrite R. cbn [Qnum Qden]. now rewrite RM, FM.
  - rewrite V. unfold Qlt. cbn [Qnum Qden inject_Z].
    rewrite Z2Pos.id by lia. rewrite <- Eq. lia.
  - rewrite V. unfold Qlt. cbn [Qnum Qden inject_Z].
    rewrite Z2Pos.id by lia. rewrite <- Eq. lia.
Qed.

(** A fraction of 2^J or more rounds to a mantissa and exponent worth
    2^J or more. *)
Lemma roundMagnitude_lower (n d J : Z) :
  0 < n -> 0 < d -> 0 <= J -> d * 2 ^ J <= n ->
  let (m, sh) := roundMagnitude n d in
  0 < m /\ (inject_Z (2 ^ J) <= scale2 m sh)%Q.
Proof.
  intros Hn Hd HJ Hx.
  pose proof (binaryExponent_lower n d Hn Hd) as Lo.
  pose proof (Z.log2_nonneg d) as Ld.
  assert (PJ : 0 < 2 ^ J) by (apply Z.pow_pos_nonneg; lia).
  assert (He : J <= binaryExponent n d).
  { pose proof (binaryExponent_spec n d (Z.log2 d + 1)
                  Hn Hd ltac:(lia) ltac:(lia)) as [_ U].
    set (e := binaryExponent n d) in *.
    assert (P : 0 < 2 ^ (Z.log2 d + 1)) by (apply Z.pow_pos_nonneg; lia).
    assert (A : 2 ^ (J + (Z.log2 d + 1)) < 2 ^ (e + (Z.log2 d + 1) + 1)).
    { rewrite Z.pow_add_r by lia. nia. }
    apply Z.pow_lt_mono_r_iff in A; lia. }
  unfold roundMagnitude.
  set (e := binaryExponent n d) in *.
  replace (Z.max e (-1022) - 52) with (e - 52) by lia.
  destruct (Z.le_gt_cases e 52) as [C | C].
  - replace (Z.max 0 (- (e - 52))) with (52 - e) by lia.
    replace (Z.max 0 (e - 52)) with 0 by lia.
    rewrite Z.mul_1_r.
    pose proof (binaryExponent_spec n d (52 - e)
                  Hn Hd ltac:(lia) ltac:(fold e; lia)) as [L _].
    fold e in L. replace (e + (52 - e)) with 52 in L by lia.
    assert (PS : 0 < 2 ^ (52 - e)) by (apply Z.pow_pos_nonneg; lia).
    pose proof (roundHalfEven_bounds (n * 2 ^ (52 - e)) d ltac:(nia) Hd)
      as [[B _] _].
    assert (F : 2 ^ 52 <= n * 2 ^ (52 - e) / d)
      by (apply Z.div_le_lower_bound; lia).
    set (m := roundHalfEven (n * 2 ^ (52 - e)) d) in *.
    split; [ lia | ].
    rewrite scale2_value by lia. replace (- (e - 52)) with (52 - e) by lia.
    unfold Qle. cbn [Qnum Qden inject_Z]. rewrite Z2Pos.id by lia.
    rewrite Z.mul_1_r.
    assert (2 ^ J * 2 ^ (52 - e) <= 2 ^ 52).
    { rewrite <- Z.pow_add_r by lia. apply Z.pow_le_mono_r; lia. }
    lia.
  - replace (Z.max 0 (- (e - 52))) with 0 by lia.
    replace (Z.max 0 (e - 52)) with (e - 52) by lia.
    rewrite Z.mul_1_r.
    pose proof (binaryExponent_spec n d 0 Hn Hd ltac:(lia) ltac:(fold e; lia))
      as [L _].
    fold e in L. rewrite Z.add_0_r, Z.mul_1_r in L.
    assert (PS : 0 < 2 ^ (e - 52)) by (apply Z.pow_pos_nonneg; lia).
    assert (E : 2 ^ e = 2 ^ 52 * 2 ^ (e - 52)).
    { rewrite <- Z.pow_add_r by lia. f_equal. lia. }
    pose proof (roundHalfEven_bounds n (d * 2 ^ (e - 52)) ltac:(lia) ltac:(nia))
      as [[B _] _].
    assert (F : 2 ^ 52 <= n / (d * 2 ^ (e - 52)))
      by (apply Z.div_le_lower_bound; nia).
    set (m := roundHalfEven n (d * 2 ^ (e - 52))) in *.
    split; [ lia | ].
    unfold scale2. replace (0 <=? e - 52) with true by (symmetry; apply Z.leb_le; lia).
    rewrite <- Zle_Qle.
    assert (2 ^ J <= 2 ^ e) by (apply Z.pow_le_mono_r; lia).
    nia.
Qed.

(** A rational of -1 or below rounds to a number of -1 or below. *)
Lemma round64_le_minus_1 (q : Q) :
  (q <= - (1))%Q -> le (round64 q) (Fin (- (1))) = true.
Proof.
  intros H. rewrite <- (Qred_correct q) in H.
  unfold round64. destruct (Qred q) as [n d]. cbn [Qnum Qden].
  unfold Qle in H. cbn [Qnum Qden Qopp] in H.
  destruct n as [ | p | p ]; try lia.
  pose proof (roundMagnitude_lower (Z.pos p) (Z.pos d) 0
                ltac:(lia) ltac:(lia) ltac:(lia) ltac:(lia)) as R.
  destruct (roundMagnitude (Z.pos p) (Z.pos d)) as [m sh].
  destruct R as [M V]. unfold finite.
  replace (m =? 0) with false by (symmetry; apply Z.eqb_neq; lia).
  destruct (1024 <=? Z.log2 m + sh); [ reflexivity | ].
  cbn [le value]. apply Qle_bool_iff.
  rewrite Qred_correct. change (inject_Z (2 ^ 0)) with 1%Q in V.
  now apply Qopp_le_compat in V.
Qed.

(** *** The primitives on integers *)

(** [x + 1] on an integer, as long as the sum is no more than 2^53 away
    from 0 *)
Lemma add_one_integer (x : number) (z : Z) :
  asInteger x = Some z -> - 2 ^ 53 <= z + 1 <= 2 ^ 53 ->
  add x one = Fin (inject_Z (z + 1)).
Proof.
  intros H B. destruct (asInteger_cases _ _ H) as [[-> ->] | [q [-> Hq]]].
  - reflexivity.
  - unfold one, add.
    rewrite (round64_Qeq _ (inject_Z (z + 1)));
      [ now apply round64_inject_Z | ].
    rewrite Hq, inject_Z_plus. reflexivity.
Qed.

(** [x - 1] on an integer, under the same condition *)
Lemma sub_one_integer (x : number) (z : Z) :
  asInteger x = Some z -> - 2 ^ 53 <= z - 1 <= 2 ^ 53 ->
  sub x one = Fin (inject_Z (z - 1)).
Proof.
  intros H B. destruct (asInteger_cases _ _ H) as [[-> ->] | [q [-> Hq]]].
  - reflexivity.
  - change (sub (Fin q) one) with (round64 (q + Qred (- (1)))).
    rewrite (round64_Qeq _ (inject_Z (z - 1)));
      [ now apply round64_inject_Z | ].
    rewrite Hq, Qred_correct. unfold Z.sub. rewrite inject_Z_plus. reflexivity.
Qed.

Lemma Qfloor_between (v : Q) (q : Z) :
  (inject_Z q <= v)%Q -> (v < inject_Z (q + 1))%Q -> Qfloor v = q.
Proof.
  intros L U.
  pose proof (Qfloor_le v) as A. pose proof (Qlt_floor v) as B.
  assert (q < Qfloor v + 1).
  { rewrite Zlt_Qlt. eapply Qle_lt_trans; [ exact L | exact B ]. }
  assert (Qfloor v < q + 1).
  { rewrite Zlt_Qlt. eapply Qle_lt_trans; [ exact A | exact U ]. }
  lia.
Qed.

Lemma Qdiv_integers (a b : Q) (t l : Z) :
  a == inject_Z t -> b == inject_Z l -> 0 < l ->
  a / b == Qmake t (Z.to_pos l).
Proof.
  intros Ha Hb Hl. rewrite Ha, Hb.
  destruct l as [ | p | p ]; try lia.
  unfold Qeq, Qdiv, Qmult, Qinv. simpl. lia.
Qed.

(** [Math.floor(t / l)] on a document count and a page size up to 2^53 is
    the integer quotient *)
Lemma floor_div_asInteger (x y : number) (t l : Z) :
  asInteger x = Some t -> asInteger y = Some l ->
  0 <= t <= 2 ^ 53 -> 1 <= l <= 2 ^ 53 ->
  asInteger (floor (div x y)) = Some (t / l).
Proof.
  intros Hx Hy Bt Bl.
  destruct (asInteger_cases _ _ Hy) as [[-> ->] | [ql [-> Hql]]]; [ lia | ].
  assert (Zl : isZero ql = false).
  { rewrite (isZero_Qeq _ _ Hql). apply Z.eqb_neq. lia. }
  assert (Sl : sign (Fin ql) = false).
  { rewrite (sign_Qeq _ _ Hql). apply Z.ltb_ge. lia. }
  destruct (asInteger_cases _ _ Hx) as [[-> ->] | [qt [-> Hqt]]].
  - unfold div. cbn [value]. rewrite Zl, Sl. reflexivity.
  - unfold div. cbn [value]. rewrite Zl, Sl.
    rewrite (isZero_Qeq _ _ Hqt), (sign_Qeq _ _ Hqt).
    destruct (Z.eqb_spec t 0) as [-> | Ht0]; [ reflexivity | ].
    rewrite (round64_Qeq _ _ (Qdiv_integers _ _ _ _ Hqt Hql ltac:(lia))).
    destruct (Z.eq_dec (t mod l) 0) as [M | M].
    + assert (E : Qmake t (Z.to_pos l) == inject_Z (t / l)).
      { unfold Qeq. cbn [Qnum Qden inject_Z]. rewrite Z2Pos.id by lia.
        pose proof (Z.div_mod t l ltac:(lia)). lia. }
      assert (0 <= t / l <= t).
      { split; [ apply Z.div_pos; lia | ].
        apply Z.div_le_upper_bound; nia. }
      rewrite (round64_Qeq _ _ E), round64_inject_Z by lia.
      cbn [floor]. rewrite Qfloor_Z. apply asInteger_inject_Z.
    + destruct (round64_quotient t l false ltac:(lia) ltac:(lia) M)
        as [v [R [L U]]].
      rewrite R. cbn [floor].
      rewrite (Qfloor_between v (t / l)); [ apply asInteger_inject_Z | | exact U ].
      now apply Qlt_le_weak.
Qed.

(** the same for a negative page size: the quotient is rounded down *)
Lemma floor_div_negative (x y : number) (t l : Z) :
  asInteger x = Some t -> asInteger y = Some l ->
  0 < t <= 2 ^ 53 -> - 2 ^ 53 <= l < 0 ->
  asInteger (floor (div x y)) = Some (t / l).
Proof.
  intros Hx Hy Bt Bl.
  destruct (asInteger_cases _ _ Hy) as [[-> ->] | [ql [-> Hql]]]; [ lia | ].
  destruct (asInteger_cases _ _ Hx) as [[-> ->] | [qt [-> Hqt]]]; [ lia | ].
  unfold div. cbn [value].
  rewrite (isZero_Qeq _ _ Hql), (isZero_Qeq _ _ Hqt).
  replace (l =? 0) with false by (symmetry; apply Z.eqb_neq; lia).
  replace (t =? 0) with false by (symmetry; apply Z.eqb_neq; lia).
  assert (E : qt / ql == - Qmake t (Z.to_pos (- l))).
  { rewrite Hqt, Hql. destruct l as [ | p | p ]; try lia.
    unfold Qeq, Qdiv, Qmult, Qinv, Qopp. simpl. lia. }
  rewrite (round64_Qeq _ _ E).
  destruct (Z.eq_dec (t mod - l) 0) as [M | M].
  - assert (E' : - Qmake t (Z.to_pos (- l)) == inject_Z (t / l)).
    { replace l with (- - l) at 2 by lia.
      rewrite Z.div_opp_r_z by lia.
      unfold Qeq. cbn [Qnum Qden inject_Z Qopp]. rewrite Z2Pos.id by lia.
      pose proof (Z.div_mod t (- l) ltac:(lia)). lia. }
    assert (0 <= t / - l <= t).
    { split; [ apply Z.div_pos; lia | ].
      apply Z.div_le_upper_bound; nia. }
    assert (t / l = - (t / - l)).
    { replace l with (- - l) at 1 by lia. now rewrite Z.div_opp_r_z by lia. }
    rewrite (round64_Qeq _ _ E'), round64_inject_Z by lia.
    cbn [floor]. rewrite Qfloor_Z. apply asInteger_inject_Z.
  - destruct (round64_quotient t (- l) true ltac:(lia) ltac:(lia) M)
      as [v [R [L U]]].
    rewrite R. cbn [floor].
    assert (Q : t / l = - (t / - l) - 1).
    { replace l with (- - l) at 1 by lia. now rewrite Z.div_opp_r_nz by lia. }
    rewrite (Qfloor_between (- v) (t / l)); [ apply asInteger_inject_Z | | ].
    + rewrite Q. apply Qlt_le_weak.
      replace (- (t / - l) - 1) with (- (t / - l + 1)) by lia.
      rewrite inject_Z_opp. now apply Qopp_lt_compat.
    + rewrite Q. replace (- (t / - l) - 1 + 1) with (- (t / - l)) by lia.
      rewrite inject_Z_opp. now apply Qopp_lt_compat.
Qed.

(** [x <= y] on integers *)
Lemma le_asInteger (x y : number) (a b : Z) :
  asInteger x = Some a -> asInteger y = Some b -> le x y = (a <=? b).
Proof.
  intros Hx Hy.
  assert (E : le x y = Qle_bool (value x) (value y)).
  { destruct (asInteger_cases _ _ Hx) as [[-> _] | [p [-> _]]],
             (asInteger_cases _ _ Hy) as [[-> _] | [q [-> _]]]; reflexivity. }
  rewrite E.
  apply value_asInteger in Hx. apply value_asInteger in Hy.
  destruct (Z.leb_spec a b) as [L | L].
  - apply Qle_bool_iff. rewrite Hx, Hy, <- Zle_Qle. exact L.
  - destruct (Qle_bool (value x) (value y)) eqn:F; [ | reflexivity ].
    apply Qle_bool_iff in F. rewrite Hx, Hy, <- Zle_Qle in F. lia.
Qed.

(** [x === 1] on an integer *)
Lemma strict_eq_one_asInteger (x : number) (a : Z) :
  asInteger x = Some a -> strict_eq x one = (a =? 1).
Proof.
  intros Hx.
  assert (E : strict_eq x one = Qeq_bool (value x) 1).
  { destruct (asInteger_cases _ _ Hx) as [[-> _] | [p [-> _]]]; reflexivity. }
  rewrite E. apply value_asInteger in Hx.
  destruct (Z.eqb_spec a 1) as [-> | N].
  - apply Qeq_bool_iff. exact Hx.
  - destruct (Qeq_bool (value x) 1) eqn:F; [ | reflexivity ].
    apply Qeq_bool_iff in F. rewrite Hx in F.
    apply (proj1 (inject_Z_injective a 1)) in F. contradiction.
Qed.

(** no rounding is involved when there is nothing to divide *)
Lemma floor_div_zero (x y : number) (l : Z) :
  asInteger x = Some 0 -> asInteger y = Some l -> l <> 0 ->
  asInteger (floor (div x y)) = Some 0.
Proof.
  intros Hx Hy Nl.
  destruct (asInteger_cases _ _ Hy) as [[-> ->] | [ql [-> Hql]]]; [ lia | ].
  assert (Zl : isZero ql = false).
  { rewrite (isZero_Qeq _ _ Hql). now apply Z.eqb_neq. }
  destruct (asInteger_cases _ _ Hx) as [[-> _] | [qt [-> Hqt]]].
  - unfold div. cbn [value]. rewrite Zl. cbn [isZero Qnum Z.eqb].
    now destruct (xorb (sign NegZero) (sign (Fin ql))).
  - unfold div. cbn [value]. rewrite Zl, (isZero_Qeq _ _ Hqt). cbn [Z.eqb].
    now destruct (xorb (sign (Fin qt)) (sign (Fin ql))).
Qed.

(** The coercion, the arithmetic and the printing on samples, with the
    rounding of binary64 where it shows. *)
Example Number_samples :
  map Number ["1"; " 42 "; "007"; "-3"; "1e3"; "0x1F"; "1.5"; "-0"; "-Infinity"]
  = [Fin 1; Fin 42; Fin 7; Fin (-3); Fin 1000; Fin 31; Fin (3 # 2); NegZero; Inf true]
  /\ map Number [EmptyString; "abc"; "12px"; "1e"; "."; "0x"; "-0x10"; "1 2"]
  = [Fin 0; NaN; NaN; NaN; NaN; NaN; NaN; NaN]
  /\ map Number ["9007199254740993"; "1e400"; "1e-400"; "-1e-400"]
  = [Fin 9007199254740992; Inf false; Fin 0; NegZero].
Proof. repeat split; vm_compute; reflexivity. Qed.

Example toString_samples :
  map toString [Fin 0; NegZero; Fin 25; Fin (-1); Fin (3 # 2); Number "1e-7";
                Number "1e21"; Number "1152921504606846976"; Number "0.1";
                NaN; Inf false; Inf true]
  = ["0"; "0"; "25"; "-1"; "1.5"; "1e-7"; "1e+21"; "1152921504606847000"; "0.1";
     "NaN"; "Infinity"; "-Infinity"]%string.
Proof. vm_compute. reflexivity. Qed.

Example rounding_samples :
  map toString [add (Number "9007199254740992") one;
                sub (Number "9007199254740994") one;
                sub (Number "2.3") one;
                div (Number "7") (Number "0.07");
                add (Number "0.1") (Number "0.2")]
  = ["9007199254740992"; "9007199254740992"; "1.2999999999999998";
     "99.99999999999999"; "0.30000000000000004"]%string.
Proof. vm_compute. reflexivity. Qed.

Example division_by_zero_samples :
  map (fun x => floor (div x (Fin 0))) [Fin 10; Fin 0; Fin (-10)] = [Inf false; NaN; Inf true]
  /\ div (Fin 10) NegZero = Inf true
  /\ floor (div (Fin 25) (Fin 10)) = Fin 2.
Proof. repeat split; vm_compute; reflexivity. Qed.

End JSFacts.

(** ** Facts about the link object *)
Module LinkFacts.
Import JS JSFacts LinkHeaderInterceptor Header.

Local Open Scope Z_scope.

Lemma append_assoc (a b c : string) : (a ++ b) ++ c = a ++ b ++ c.
Proof. induction a as [ | x a IH ]; simpl; [ reflexivity | now rewrite IH ]. Qed.

Lemma occursIn_refl (s : string) : occursIn s s.
Proof.
  exists EmptyString, EmptyString. simpl.
  induction s as [ | x s IH ]; simpl; [ reflexivity | now rewrite <- IH ].
Qed.

Lemma occursIn_trans (a b c : string) : occursIn a b -> occursIn b c -> occursIn a c.
Proof.
  intros [p [q ->]] [p' [q' ->]].
  exists (p' ++ p), (q ++ q'). now rewrite !append_assoc.
Qed.

Lemma occursIn_concat (sep x : string) (l : list string) :
  In x l -> occursIn x (String.concat sep l).
Proof.
  induction l as [ | y l IH ]; intros H; [ destruct H | ].
  destruct H as [-> | H].
  - destruct l as [ | z l ]; simpl.
    + apply occursIn_refl.
    + now exists EmptyString, (sep ++ String.concat sep (z :: l)).
  - destruct l as [ | z l ]; [ destruct H | ].
    destruct (IH H) as [p [q E]].
    exists (y ++ sep ++ p), q.
    change (String.concat sep (y :: z :: l))
      with (y ++ sep ++ String.concat sep (z :: l)).
    now rewrite E, !append_assoc.
Qed.

Lemma get_In (rel : Relation) (link : Link.t) (links : Links.t) :
  Links.get rel links = Some link -> exists r, In (r, link) links.
Proof.
  induction links as [ | [r l] links IH ]; simpl; [ discriminate | ].
  destruct (Relation_eqb rel r).
  - intros H. injection H as ->. exists r. now left.
  - intros H. destruct (IH H) as [r' Hr']. exists r'. now right.
Qed.

(** the URL of every entry of the object is written into the header *)
Lemma url_in_header (rel : Relation) (link : Link.t) (links : Links.t) :
  Links.get rel links = Some link ->
  occursIn (Link.url link) (formatLinkHeader links).
Proof.
  intros H. destruct (get_In _ _ _ H) as [r Hr].
  apply occursIn_trans with (b := formatLink link).
  - unfold formatLink. now exists "<", (">; rel=" ++ quote ++ relationName (Link.rel link) ++ quote ++
      "; per_page=" ++ quote ++ Link.per_page link ++ quote ++
      "; page=" ++ quote ++ Link.page link ++ quote).
  - unfold formatLinkHeader. apply occursIn_concat.
    apply (in_map (fun entry => formatLink (snd entry)) _ _ Hr).
Qed.

(** *** What [buildLink] returns, relation by relation *)

Lemma buildLink_first (o : LinkOptions.t) :
  buildLink first o =
  Link.make (pageUrl o "1") first (LinkOptions.limit o) (LinkOptions.page o).
Proof.
  unfold buildLink, pageUrl, Link.set_url. simpl.
  now rewrite !append_assoc.
Qed.

Lemma buildLink_last (o : LinkOptions.t) :
  buildLink last o =
  Link.make
    (pageUrl o (toString (add (floor (div (LinkOptions.totalDocs o)
                                          (Number (LinkOptions.limit o)))) one)))
    last (LinkOptions.limit o) (LinkOptions.page o).
Proof.
  unfold buildLink, pageUrl, Link.set_url. simpl.
  now rewrite !append_assoc.
Qed.

Lemma buildLink_next (o : LinkOptions.t) :
  buildLink next o =
  Link.make (pageUrl o (toString (add (Number (LinkOptions.page o)) one)))
            next (LinkOptions.limit o)
            (toString (add (Number (LinkOptions.page o)) one)).
Proof.
  unfold buildLink, pageUrl, Link.set_url, Link.set_page. simpl.
  now rewrite !append_assoc.
Qed.

Lemma buildLink_prev (o : LinkOptions.t) :
  buildLink prev o =
  Link.make (pageUrl o (toString (sub (Number (LinkOptions.page o)) one)))
            prev (LinkOptions.limit o)
            (toString (sub (Number (LinkOptions.page o)) one)).
Proof.
  unfold buildLink, pageUrl, Link.set_url, Link.set_page. simpl.
  now rewrite !append_assoc.
Qed.

(** *** The entries of the object [setLinkHeader] builds *)

Lemma get_first (o : LinkOptions.t) :
  Links.get first (linkObject o) = Some (buildLink first o).
Proof. unfold linkObject. destruct (hasNextPage o), (isFirstPage o); reflexivity. Qed.

Lemma get_last (o : LinkOptions.t) :
  Links.get last (linkObject o) = Some (buildLink last o).
Proof. unfold linkObject. destruct (hasNextPage o), (isFirstPage o); reflexivity. Qed.

Lemma get_next (o : LinkOptions.t) :
  Links.get next (linkObject o) =
  if hasNextPage o then Some (buildLink next o) else None.
Proof. unfold linkObject. destruct (hasNextPage o), (isFirstPage o); reflexivity. Qed.

Lemma get_prev (o : LinkOptions.t) :
  Links.get prev (linkObject o) =
  if isFirstPage o then None else Some (buildLink prev o).
Proof. unfold linkObject. destruct (hasNextPage o), (isFirstPage o); reflexivity. Qed.

Lemma keys_linkObject (o : LinkOptions.t) :
  Links.keys (linkObject o) =
  ([first; last] ++ (if hasNextPage o then [next] else []) ++
   (if isFirstPage o then [] else [prev]))%list.
Proof. unfold linkObject. destruct (hasNextPage o), (isFirstPage o); reflexivity. Qed.

(** *** The header and the entries of the object *)

Lemma setLinkHeader_values (o : LinkOptions.t) :
  setLinkHeader o = headerOf (values (linkObject o)).
Proof.
  unfold setLinkHeader, formatLinkHeader, headerOf, values.
  now rewrite map_map.
Qed.

Lemma values_linkObject (o : LinkOptions.t) :
  values (linkObject o) =
  ([buildLink first o; buildLink last o] ++
   (if hasNextPage o then [buildLink next o] else []) ++
   (if isFirstPage o then [] else [buildLink prev o]))%list.
Proof. unfold linkObject. destruct (hasNextPage o), (isFirstPage o); reflexivity. Qed.

Lemma header_linkObject (o : LinkOptions.t) :
  setLinkHeader o =
  headerOf ([buildLink first o; buildLink last o] ++
            (if hasNextPage o then [buildLink next o] else []) ++
            (if isFirstPage o then [] else [buildLink prev o])).
Proof. now rewrite setLinkHeader_values, values_linkObject. Qed.

(** *** The two conditions and the links on integer inputs *)

Lemma hasNextPage_integers (o : LinkOptions.t) (p l t : Z) :
  asInteger (Number (LinkOptions.page o)) = Some p ->
  asInteger (Number (LinkOptions.limit o)) = Some l ->
  asInteger (LinkOptions.totalDocs o) = Some t ->
  1 <= l <= 2 ^ 53 -> 0 <= t <= 2 ^ 53 ->
  hasNextPage o = (p <=? t / l).
Proof.
  intros Hp Hl Ht Ll Lt. unfold hasNextPage.
  apply le_asInteger; [ exact Hp | ].
  now apply floor_div_asInteger.
Qed.

Lemma isFirstPage_integer (o : LinkOptions.t) (p : Z) :
  asInteger (Number (LinkOptions.page o)) = Some p ->
  isFirstPage o = (p =? 1).
Proof. intros Hp. unfold isFirstPage. now apply strict_eq_one_asInteger. Qed.

Lemma lastPage_integers (o : LinkOptions.t) (l t : Z) :
  asInteger (Number (LinkOptions.limit o)) = Some l ->
  asInteger (LinkOptions.totalDocs o) = Some t ->
  1 <= l <= 2 ^ 53 -> 0 <= t < 2 ^ 53 ->
  add (floor (div (LinkOptions.totalDocs o)
                  (Number (LinkOptions.limit o)))) one
  = Fin (inject_Z (t / l + 1)).
Proof.
  intros Hl Ht Ll Lt.
  assert (0 <= t / l <= t).
  { split; [ apply Z.div_pos; lia | apply Z.div_le_upper_bound; nia ]. }
  apply add_one_integer; [ apply floor_div_asInteger; auto; lia | lia ].
Qed.

Lemma buildLink_next_integer (o : LinkOptions.t) (p : Z) :
  asInteger (Number (LinkOptions.page o)) = Some p ->
  - 2 ^ 53 <= p + 1 <= 2 ^ 53 ->
  buildLink next o =
  Link.make (pageUrl o (pageString (p + 1))) next (LinkOptions.limit o)
            (pageString (p + 1)).
Proof.
  intros Hp B. rewrite buildLink_next.
  now rewrite (add_one_integer _ _ Hp B).
Qed.

Lemma buildLink_prev_integer (o : LinkOptions.t) (p : Z) :
  asInteger (Number (LinkOptions.page o)) = Some p ->
  - 2 ^ 53 <= p - 1 <= 2 ^ 53 ->
  buildLink prev o =
  Link.make (pageUrl o (pageString (p - 1))) prev (LinkOptions.limit o)
            (pageString (p - 1)).
Proof.
  intros Hp B. rewrite buildLink_prev.
  now rewrite (sub_one_integer _ _ Hp B).
Qed.

Lemma buildLink_last_integers (o : LinkOptions.t) (l t : Z) :
  asInteger (Number (LinkOptions.limit o)) = Some l ->
  asInteger (LinkOptions.totalDocs o) = Some t ->
  1 <= l <= 2 ^ 53 -> 0 <= t < 2 ^ 53 ->
  buildLink last o =
  Link.make (pageUrl o (pageString (t / l + 1))) last (LinkOptions.limit o)
            (LinkOptions.page o).
Proof.
  intros Hl Ht Ll Lt. rewrite buildLink_last.
  now rewrite (lastPage_integers _ _ _ Hl Ht Ll Lt).
Qed.

(** with no documents the last page is page 1, whatever the page size *)
Lemma buildLink_last_no_documents (o : LinkOptions.t) (l : Z) :
  asInteger (Number (LinkOptions.limit o)) = Some l ->
  asInteger (LinkOptions.totalDocs o) = Some 0 ->
  l <> 0 ->
  buildLink last o =
  Link.make (pageUrl o "1") last (LinkOptions.limit o) (LinkOptions.page o).
Proof.
  intros Hl Ht Nl. rewrite buildLink_last.
  now rewrite (add_one_integer _ 0 (floor_div_zero _ _ l Ht Hl Nl)) by lia.
Qed.

(** The whole header on integers below 2^53. *)
Lemma header_integers (o : LinkOptions.t) (p l t : Z) :
  asInteger (Number (LinkOptions.page o)) = Some p ->
  asInteger (Number (LinkOptions.limit o)) = Some l ->
  asInteger (LinkOptions.totalDocs o) = Some t ->
  - 2 ^ 53 < p < 2 ^ 53 -> 1 <= l <= 2 ^ 53 -> 0 <= t < 2 ^ 53 ->
  setLinkHeader o =
  headerOf
    ([ Link.make (pageUrl o "1") first (LinkOptions.limit o) (LinkOptions.page o);
       Link.make (pageUrl o (pageString (t / l + 1))) last
                 (LinkOptions.limit o) (LinkOptions.page o) ] ++
     (if p <=? t / l
      then [ Link.make (pageUrl o (pageString (p + 1))) next
                       (LinkOptions.limit o) (pageString (p + 1)) ]
      else []) ++
     (if p =? 1
      then []
      else [ Link.make (pageUrl o (pageString (p - 1))) prev
                       (LinkOptions.limit o) (pageString (p - 1)) ])).
Proof.
  intros Hp Hl Ht Bp Bl Bt.
  rewrite header_linkObject.
  rewrite (hasNextPage_integers o p l t Hp Hl Ht) by lia.
  rewrite (isFirstPage_integer o p Hp).
  rewrite buildLink_first, (buildLink_last_integers o l t Hl Ht) by lia.
  rewrite (buildLink_next_integer o p Hp), (buildLink_prev_integer o p Hp) by lia.
  reflexivity.
Qed.

(** a page of 0 or below is not the first page, and the page before it is
    -1 or below *)
Lemma nonpositive_page (x : number) :
  le x (Fin 0) = true ->
  strict_eq x one = false /\ le (sub x one) (Fin (- (1))) = true.
Proof.
  destruct x as [ | [ | ] | | q ]; try discriminate.
  - intros _. split; reflexivity.
  - intros _. split; reflexivity.
  - cbn [le value]. intros H. apply Qle_bool_iff in H. split.
    + cbn [strict_eq value one].
      destruct (Qeq_bool q 1) eqn:E; [ | reflexivity ].
      apply Qeq_bool_iff in E. rewrite E in H.
      unfold Qle in H. simpl in H. lia.
    + change (sub (Fin q) one) with (round64 (q + Qred (- (1)))).
      apply round64_le_minus_1.
      rewrite Qred_correct.
      setoid_replace (- (1))%Q with (0 + - (1))%Q by ring.
      apply Qplus_le_compat; [ exact H | apply Qle_refl ].
Qed.

End LinkFacts.

(** ** The properties of the link header *)
Module Pagination.
Import JS JSFacts LinkHeaderInterceptor Header LinkFacts.

Local Open Scope Z_scope.

(** Scenarios A to D evaluate as the specification lists them. *)
Example scenarioA_links :
  linkObject scenarioA =
  [ (first, Link.make "/items?page=1&per_page=10" first "10" "1");
    (last, Link.make "/items?page=3&per_page=10" last "10" "1");
    (next, Link.make "/items?page=2&per_page=10" next "10" "2") ].
Proof. vm_compute. reflexivity. Qed.

Example scenarioB_links :
  linkObject scenarioB =
  [ (first, Link.make "/items?page=1&per_page=10" first "10" "3");
    (last, Link.make "/items?page=3&per_page=10" last "10" "3");
    (prev, Link.make "/items?page=2&per_page=10" prev "10" "2") ].
Proof. vm_compute. reflexivity. Qed.

Example scenarioC_links :
  linkObject scenarioC =
  [ (first, Link.make "/items?page=1&per_page=100" first "100" "1");
    (last, Link.make "/items?page=1&per_page=100" last "100" "1") ].
Proof. vm_compute. reflexivity. Qed.

Example scenarioD_links :
  linkObject scenarioD =
  [ (first, Link.make "/items?page=1&per_page=10" first "10" "1");
    (last, Link.make "/items?page=2&per_page=10" last "10" "1");
    (next, Link.make "/items?page=2&per_page=10" next "10" "2") ].
Proof. vm_compute. reflexivity. Qed.

(** C1. On page 2 of 25 documents, 10 per page, the URLs of the [first] and
    [last] links carry page 1 and page 3, but the page attribute of both
    entries is the requested page, 2: [buildLink] sets [link.page] for
    [prev] and [next] only. *)
Example first_last_page_attribute_on_page_2 :
  let o := LinkOptions.make "2" "10" "/items" (Fin 25) in
  Links.get first (linkObject o)
    = Some (Link.make "/items?page=1&per_page=10" first "10" "2") /\
  Links.get last (linkObject o)
    = Some (Link.make "/items?page=3&per_page=10" last "10" "2").
Proof. split; vm_compute; reflexivity. Qed.

(** C2, as the code has it.  For integers 1 <= page < 2^53,
    1 <= limit < 2^53 and 0 <= totalDocs < 2^53 the header has a [next]
    entry exactly when page <= floor(totalDocs / limit), with the URL
    resourceUrl?page=<page+1>&per_page=<limit>: the header is the
    serialization of [first], [last], that [next] entry if any, and [prev]
    unless page is 1. *)
Theorem next_link_iff_has_next_page (o : LinkOptions.t) (p l t : Z) :
  asInteger (Number (LinkOptions.page o)) = Some p ->
  asInteger (Number (LinkOptions.limit o)) = Some l ->
  asInteger (LinkOptions.totalDocs o) = Some t ->
  1 <= p < 2 ^ 53 -> 1 <= l < 2 ^ 53 -> 0 <= t < 2 ^ 53 ->
  let nextEntry :=
    Link.make (pageUrl o (pageString (p + 1))) next
              (LinkOptions.limit o) (pageString (p + 1)) in
  Links.get next (linkObject o) = (if p <=? t / l then Some nextEntry else None) /\
  setLinkHeader o =
  headerOf
    ([ Link.make (pageUrl o "1") first (LinkOptions.limit o) (LinkOptions.page o);
       Link.make (pageUrl o (pageString (t / l + 1))) last
                 (LinkOptions.limit o) (LinkOptions.page o) ] ++
     (if p <=? t / l then [ nextEntry ] else []) ++
     (if p =? 1
      then []
      else [ Link.make (pageUrl o (pageString (p - 1))) prev
                       (LinkOptions.limit o) (pageString (p - 1)) ])).
Proof.
  intros Hp Hl Ht Bp Bl Bt nextEntry. split.
  - rewrite get_next, (hasNextPage_integers o p l t Hp Hl Ht) by lia.
    now rewrite (buildLink_next_integer o p Hp) by lia.
  - apply (header_integers o p l t Hp Hl Ht); lia.
Qed.

Lemma next_link_iff_has_next_page_witness :
  (1 <= 1 < 2 ^ 53 /\ 1 <= 10 < 2 ^ 53 /\ 0 <= 25 < 2 ^ 53) /\
  Links.get next (linkObject scenarioA)
    = Some (Link.make "/items?page=2&per_page=10" next "10" "2") /\
  setLinkHeader scenarioA =
  headerOf [ Link.make "/items?page=1&per_page=10" first "10" "1";
             Link.make "/items?page=3&per_page=10" last "10" "1";
             Link.make "/items?page=2&per_page=10" next "10" "2" ].
Proof.
  split; [ lia | ].
  pose proof (next_link_iff_has_next_page scenarioA 1 10 25
                ltac:(vm_compute; reflexivity) ltac:(vm_compute; reflexivity)
                ltac:(vm_compute; reflexivity) ltac:(lia) ltac:(lia) ltac:(lia))
    as H.
  vm_compute in H |- *. exact H.
Defined.

(** C2, as stated, fails from 2^53 on: on page 2^53 of 2^53 documents, one
    per page, page + 1 is rounded back to 2^53 and the [next] link is a
    link to the page itself, not to page 2^53 + 1. *)
Lemma next_link_at_2_53_repeats_the_page :
  let o := LinkOptions.make "9007199254740992" "1" "/items" (Fin 9007199254740992) in
  asInteger (Number (LinkOptions.page o)) = Some 9007199254740992 /\
  asInteger (Number (LinkOptions.limit o)) = Some 1 /\
  asInteger (LinkOptions.totalDocs o) = Some 9007199254740992 /\
  Links.get next (linkObject o)
    = Some (Link.make "/items?page=9007199254740992&per_page=1" next "1"
                      "9007199254740992") /\
  pageUrl o (pageString (9007199254740992 + 1))
    = "/items?page=9007199254740993&per_page=1"%string /\
  setLinkHeader o =
  headerOf [ Link.make "/items?page=1&per_page=1" first "1" "9007199254740992";
             Link.make "/items?page=9007199254740992&per_page=1" last "1"
                       "9007199254740992";
             Link.make "/items?page=9007199254740992&per_page=1" next "1"
                       "9007199254740992";
             Link.make "/items?page=9007199254740991&per_page=1" prev "1"
                       "9007199254740991" ].
Proof. repeat split; vm_compute; reflexivity. Qed.

(** C3, as the code has it.  When totalDocs is an exact multiple of limit
    and the current page is the last full one (totalDocs = page * limit),
    all three integers from 1 and below 2^53, the header still has a [next]
    entry, to page + 1, the page the [last] link names too, although no
    document is left for it. *)
Theorem next_link_on_exact_multiple (o : LinkOptions.t) (p l t : Z) :
  asInteger (Number (LinkOptions.page o)) = Some p ->
  asInteger (Number (LinkOptions.limit o)) = Some l ->
  asInteger (LinkOptions.totalDocs o) = Some t ->
  1 <= p -> 1 <= l -> t = p * l -> t < 2 ^ 53 ->
  let nextEntry :=
    Link.make (pageUrl o (pageString (p + 1))) next
              (LinkOptions.limit o) (pageString (p + 1)) in
  Links.get next (linkObject o) = Some nextEntry /\
  setLinkHeader o =
  headerOf
    ([ Link.make (pageUrl o "1") first (LinkOptions.limit o) (LinkOptions.page o);
       Link.make (pageUrl o (pageString (p + 1))) last
                 (LinkOptions.limit o) (LinkOptions.page o);
       nextEntry ] ++
     (if p =? 1
      then []
      else [ Link.make (pageUrl o (pageString (p - 1))) prev
                       (LinkOptions.limit o) (pageString (p - 1)) ])).
Proof.
  intros Hp Hl Ht Lp Ll E Bt nextEntry.
  assert (Bp : p < 2 ^ 53) by nia.
  assert (Bl : l < 2 ^ 53) by nia.
  assert (Q : t / l = p) by (subst t; apply Z.div_mul; lia).
  split.
  - rewrite get_next, (hasNextPage_integers o p l t Hp Hl Ht) by lia.
    rewrite Q, Z.leb_refl.
    now rewrite (buildLink_next_integer o p Hp) by lia.
  - rewrite (header_integers o p l t Hp Hl Ht) by lia.
    now rewrite Q, Z.leb_refl.
Qed.

Lemma next_link_on_exact_multiple_witness :
  (1 <= 1 /\ 1 <= 10 /\ 10 = 1 * 10 /\ 10 < 2 ^ 53) /\
  Links.get next (linkObject scenarioD)
    = Some (Link.make "/items?page=2&per_page=10" next "10" "2") /\
  setLinkHeader scenarioD =
  headerOf [ Link.make "/items?page=1&per_page=10" first "10" "1";
             Link.make "/items?page=2&per_page=10" last "10" "1";
             Link.make "/items?page=2&per_page=10" next "10" "2" ].
Proof.
  split; [ lia | ].
  pose proof (next_link_on_exact_multiple scenarioD 1 10 10
                ltac:(vm_compute; reflexivity) ltac:(vm_compute; reflexivity)
                ltac:(vm_compute; reflexivity) ltac:(lia) ltac:(lia)
                ltac:(lia) ltac:(lia))
    as H.
  vm_compute in H |- *. exact H.
Defined.

(** C3, as stated, fails from 2^53 on: with 2^54 documents, 2 per page, the
    last full page is page 2^53, and its [next] link names page 2^53 again,
    not page 2^53 + 1. *)
Lemma next_link_on_exact_multiple_at_2_53 :
  let o := LinkOptions.make "9007199254740992" "2" "/items"
                            (Fin 18014398509481984) in
  asInteger (Number (LinkOptions.page o)) = Some 9007199254740992 /\
  asInteger (Number (LinkOptions.limit o)) = Some 2 /\
  asInteger (LinkOptions.totalDocs o) = Some (9007199254740992 * 2) /\
  Links.get next (linkObject o)
    = Some (Link.make "/items?page=9007199254740992&per_page=2" next "2"
                      "9007199254740992") /\
  pageString (9007199254740992 + 1) = "9007199254740993"%string /\
  setLinkHeader o =
  headerOf [ Link.make "/items?page=1&per_page=2" first "2" "9007199254740992";
             Link.make "/items?page=9007199254740992&per_page=2" last "2"
                       "9007199254740992";
             Link.make "/items?page=9007199254740992&per_page=2" next "2"
                       "9007199254740992";
             Link.make "/items?page=9007199254740991&per_page=2" prev "2"
                       "9007199254740991" ].
Proof. repeat split; vm_compute; reflexivity. Qed.

(** C4, as the code has it.  A limit of zero does not make the function
    fail.  For an integer limit from 0 to 2^53 and an integer totalDocs
    from 0 and below 2^53, whatever the page string, the function returns
    the header that serializes the [first] link, the [last] link and the
    [next] and [prev] links if any.  With limit = 0 the division by zero
    shows in the URL of the [last] link as page=Infinity (page=-Infinity
    for a limit of -0, page=NaN when totalDocs is 0 as well); with
    limit >= 1 that link carries floor(totalDocs / limit) + 1. *)
Theorem header_returned_for_any_limit (o : LinkOptions.t) (l t : Z) :
  asInteger (Number (LinkOptions.limit o)) = Some l ->
  asInteger (LinkOptions.totalDocs o) = Some t ->
  0 <= l <= 2 ^ 53 -> 0 <= t < 2 ^ 53 ->
  let lastPage :=
    if l =? 0 then
      if t =? 0 then "NaN"%string
      else if sign (Number (LinkOptions.limit o)) then "-Infinity"%string
      else "Infinity"%string
    else pageString (t / l + 1) in
  let lastEntry :=
    Link.make (pageUrl o lastPage) last
              (LinkOptions.limit o) (LinkOptions.page o) in
  Links.get last (linkObject o) = Some lastEntry /\
  occursIn (pageUrl o lastPage) (setLinkHeader o) /\
  setLinkHeader o =
  headerOf
    ([ Link.make (pageUrl o "1") first (LinkOptions.limit o) (LinkOptions.page o);
       lastEntry ] ++
     (if hasNextPage o then [ buildLink next o ] else []) ++
     (if isFirstPage o then [] else [ buildLink prev o ])).
Proof.
  intros Hl Ht Ll Lt lastPage lastEntry.
  assert (E : buildLink last o = lastEntry).
  { subst lastEntry lastPage. destruct (Z.eqb_spec l 0) as [-> | Nl].
    - rewrite buildLink_last. do 3 f_equal.
      destruct (asInteger_cases _ _ Ht) as [[-> ->] | [qt [-> Hqt]]];
        destruct (asInteger_cases _ _ Hl) as [[-> _] | [ql [-> Hql]]];
        try reflexivity.
      + unfold div. cbn [value]. rewrite (isZero_Qeq _ _ Hql). reflexivity.
      + unfold div. cbn [value isZero Qnum Z.eqb].
        rewrite (isZero_Qeq _ _ Hqt), (sign_Qeq _ _ Hqt).
        destruct (Z.eqb_spec t 0) as [-> | Nt]; [ reflexivity | ].
        replace (t <? 0) with false by (symmetry; apply Z.ltb_ge; lia).
        reflexivity.
      + unfold div. cbn [value].
        rewrite (isZero_Qeq _ _ Hql), (isZero_Qeq _ _ Hqt).
        rewrite (sign_Qeq _ _ Hqt), (sign_Qeq _ _ Hql).
        destruct (Z.eqb_spec t 0) as [-> | Nt]; [ reflexivity | ].
        replace (t <? 0) with false by (symmetry; apply Z.ltb_ge; lia).
        reflexivity.
    - apply buildLink_last_integers; [ exact Hl | exact Ht | lia | lia ]. }
  split; [ | split ].
  - now rewrite get_last, E.
  - change (pageUrl o lastPage) with (Link.url lastEntry).
    rewrite <- E. apply (url_in_header last). apply get_last.
  - now rewrite header_linkObject, buildLink_first, E.
Qed.

Lemma header_returned_for_any_limit_witness :
  (0 <= 0 <= 2 ^ 53 /\ 0 <= 10 < 2 ^ 53) /\
  Links.get last (linkObject (LinkOptions.make "1" "0" "/items" (Fin 10)))
    = Some (Link.make "/items?page=Infinity&per_page=0" last "0" "1") /\
  occursIn "/items?page=Infinity&per_page=0"
           (setLinkHeader (LinkOptions.make "1" "0" "/items" (Fin 10))) /\
  setLinkHeader (LinkOptions.make "1" "0" "/items" (Fin 10)) =
  headerOf [ Link.make "/items?page=1&per_page=0" first "0" "1";
             Link.make "/items?page=Infinity&per_page=0" last "0" "1";
             Link.make "/items?page=2&per_page=0" next "0" "2" ].
Proof.
  split; [ lia | ].
  pose proof (header_returned_for_any_limit
                (LinkOptions.make "1" "0" "/items" (Fin 10)) 0 10
                ltac:(vm_compute; reflexivity) ltac:(vm_compute; reflexivity)
                ltac:(lia) ltac:(lia))
    as [H1 [H2 H3]].
  split; [ | split ].
  - vm_compute in H1 |- *. exact H1.
  - vm_compute in H2 |- *. exact H2.
  - vm_compute in H3 |- *. exact H3.
Defined.

(** C4, as stated, fails at limit = 0: with page 1 and 10 documents the
    function returns a header of three links, the [last] one to page
    Infinity. *)
Lemma limit_zero_does_not_fail :
  let o := LinkOptions.make "1" "0" "/items" (Fin 10) in
  Number (LinkOptions.limit o) = Fin 0 /\
  linkObject o =
    [ (first, Link.make "/items?page=1&per_page=0" first "0" "1");
      (last, Link.make "/items?page=Infinity&per_page=0" last "0" "1");
      (next, Link.make "/items?page=2&per_page=0" next "0" "2") ] /\
  setLinkHeader o =
    formatLinkHeader
      [ (first, Link.make "/items?page=1&per_page=0" first "0" "1");
        (last, Link.make "/items?page=Infinity&per_page=0" last "0" "1");
        (next, Link.make "/items?page=2&per_page=0" next "0" "2") ].
Proof. repeat split; vm_compute; reflexivity. Qed.

(** C5, as the code has it.  For an integer page from 1 to 2^53, whatever
    the limit and totalDocs, the header has a [prev] entry exactly when
    page > 1, and then both the page attribute of the entry and the page
    parameter of its URL are page - 1: the header is the serialization of
    [first], [last], [next] if any, and that [prev] entry if page > 1. *)
Theorem prev_link_iff_page_gt_1 (o : LinkOptions.t) (p : Z) :
  asInteger (Number (LinkOptions.page o)) = Some p ->
  1 <= p <= 2 ^ 53 ->
  let prevEntry :=
    Link.make (pageUrl o (pageString (p - 1))) prev
              (LinkOptions.limit o) (pageString (p - 1)) in
  Links.get prev (linkObject o) = (if 1 <? p then Some prevEntry else None) /\
  setLinkHeader o =
  headerOf
    ([ buildLink first o; buildLink last o ] ++
     (if hasNextPage o then [ buildLink next o ] else []) ++
     (if 1 <? p then [ prevEntry ] else [])).
Proof.
  intros Hp Bp prevEntry.
  assert (F : isFirstPage o = negb (1 <? p)).
  { rewrite (isFirstPage_integer o p Hp).
    destruct (Z.eqb_spec p 1) as [-> | N]; [ reflexivity | ].
    now replace (1 <? p) with true by (symmetry; apply Z.ltb_lt; lia). }
  split.
  - rewrite get_prev, F, (buildLink_prev_integer o p Hp) by lia.
    now destruct (1 <? p).
  - rewrite header_linkObject, F, (buildLink_prev_integer o p Hp) by lia.
    now destruct (1 <? p).
Qed.

Lemma prev_link_iff_page_gt_1_witness :
  1 <= 3 <= 2 ^ 53 /\
  Links.get prev (linkObject scenarioB)
    = Some (Link.make "/items?page=2&per_page=10" prev "10" "2") /\
  setLinkHeader scenarioB =
  headerOf [ Link.make "/items?page=1&per_page=10" first "10" "3";
             Link.make "/items?page=3&per_page=10" last "10" "3";
             Link.make "/items?page=2&per_page=10" prev "10" "2" ].
Proof.
  split; [ lia | ].
  pose proof (prev_link_iff_page_gt_1 scenarioB 3
                ltac:(vm_compute; reflexivity) ltac:(lia))
    as H.
  vm_compute in H |- *. exact H.
Defined.

(** C5, as stated, fails above 2^53: on page 2^53 + 2 the difference
    page - 1 is rounded to 2^53, and the [prev] link names page 2^53, not
    page 2^53 + 1. *)
Lemma prev_link_above_2_53_is_rounded :
  let o := LinkOptions.make "9007199254740994" "10" "/items" (Fin 25) in
  asInteger (Number (LinkOptions.page o)) = Some 9007199254740994 /\
  asInteger (Number (LinkOptions.limit o)) = Some 10 /\
  asInteger (LinkOptions.totalDocs o) = Some 25 /\
  Links.get prev (linkObject o)
    = Some (Link.make "/items?page=9007199254740992&per_page=10" prev "10"
                      "9007199254740992") /\
  pageString (9007199254740994 - 1) = "9007199254740993"%string /\
  setLinkHeader o =
  headerOf [ Link.make "/items?page=1&per_page=10" first "10" "9007199254740994";
             Link.make "/items?page=3&per_page=10" last "10" "9007199254740994";
             Link.make "/items?page=9007199254740992&per_page=10" prev "10"
                       "9007199254740992" ].
Proof. repeat split; vm_compute; reflexivity. Qed.

(** C6, as the code has it.  With totalDocs = 0 and integers page >= 1 and
    limit >= 1 the header has no [next] entry and the URLs of [first] and
    [last] both point at page 1; a [prev] entry is present exactly when
    page > 1, so the header holds [first] and [last] alone on page 1
    only. *)
Theorem no_documents_links (o : LinkOptions.t) (p l : Z) :
  asInteger (Number (LinkOptions.page o)) = Some p ->
  asInteger (Number (LinkOptions.limit o)) = Some l ->
  asInteger (LinkOptions.totalDocs o) = Some 0 ->
  1 <= p -> 1 <= l ->
  Links.keys (linkObject o) = (if p =? 1 then [first; last] else [first; last; prev]) /\
  Links.get next (linkObject o) = None /\
  Links.get first (linkObject o) =
    Some (Link.make (pageUrl o "1") first (LinkOptions.limit o) (LinkOptions.page o)) /\
  Links.get last (linkObject o) =
    Some (Link.make (pageUrl o "1") last (LinkOptions.limit o) (LinkOptions.page o)) /\
  setLinkHeader o =
  headerOf
    ([ Link.make (pageUrl o "1") first (LinkOptions.limit o) (LinkOptions.page o);
       Link.make (pageUrl o "1") last (LinkOptions.limit o) (LinkOptions.page o) ] ++
     (if p =? 1 then [] else [ buildLink prev o ])).
Proof.
  intros Hp Hl Ht Lp Ll.
  assert (Hn : hasNextPage o = false).
  { unfold hasNextPage.
    rewrite (le_asInteger _ _ p 0 Hp (floor_div_zero _ _ l Ht Hl ltac:(lia))).
    apply Z.leb_gt. lia. }
  assert (La : buildLink last o =
               Link.make (pageUrl o "1") last
                         (LinkOptions.limit o) (LinkOptions.page o)).
  { apply (buildLink_last_no_documents o l Hl Ht). lia. }
  split; [ | split; [ | split; [ | split ] ] ].
  - rewrite keys_linkObject, Hn, (isFirstPage_integer o p Hp).
    now destruct (p =? 1).
  - now rewrite get_next, Hn.
  - now rewrite get_first, buildLink_first.
  - now rewrite get_last, La.
  - rewrite header_linkObject, Hn, (isFirstPage_integer o p Hp).
    now rewrite buildLink_first, La.
Qed.

Lemma no_documents_links_witness :
  (1 <= 1 /\ 1 <= 100) /\
  Links.keys (linkObject scenarioC) = [first; last] /\
  Links.get next (linkObject scenarioC) = None /\
  Links.get first (linkObject scenarioC)
    = Some (Link.make "/items?page=1&per_page=100" first "100" "1") /\
  Links.get last (linkObject scenarioC)
    = Some (Link.make "/items?page=1&per_page=100" last "100" "1") /\
  setLinkHeader scenarioC =
  headerOf [ Link.make "/items?page=1&per_page=100" first "100" "1";
             Link.make "/items?page=1&per_page=100" last "100" "1" ].
Proof.
  split; [ lia | ].
  pose proof (no_documents_links scenarioC 1 100
                ltac:(vm_compute; reflexivity) ltac:(vm_compute; reflexivity)
                ltac:(vm_compute; reflexivity) ltac:(lia) ltac:(lia))
    as H.
  vm_compute in H |- *. exact H.
Defined.

(** C6, as stated, fails on page 2: with no documents the header still has
    a [prev] entry, to page 1, next to [first] and [last]. *)
Lemma no_documents_page_2_has_prev :
  let o := LinkOptions.make "2" "10" "/items" (Fin 0) in
  asInteger (Number (LinkOptions.page o)) = Some 2 /\
  asInteger (Number (LinkOptions.limit o)) = Some 10 /\
  asInteger (LinkOptions.totalDocs o) = Some 0 /\
  Links.keys (linkObject o) = [first; last; prev] /\
  Links.get prev (linkObject o)
    = Some (Link.make "/items?page=1&per_page=10" prev "10" "1").
Proof. repeat split; vm_compute; reflexivity. Qed.

(** C7, as the code has it.  For integers 0 <= totalDocs < 2^53 and
    1 <= limit <= 2^53 the last page the code computes is
    floor(totalDocs / limit) + 1, it is at least 1, and it is the page
    number in the URL of the [last] link of the header. *)
Theorem last_page_at_least_1 (o : LinkOptions.t) (l t : Z) :
  asInteger (Number (LinkOptions.limit o)) = Some l ->
  asInteger (LinkOptions.totalDocs o) = Some t ->
  1 <= l <= 2 ^ 53 -> 0 <= t < 2 ^ 53 ->
  let lastEntry :=
    Link.make (pageUrl o (pageString (t / l + 1))) last
              (LinkOptions.limit o) (LinkOptions.page o) in
  asInteger (add (floor (div (LinkOptions.totalDocs o)
                             (Number (LinkOptions.limit o)))) one)
    = Some (t / l + 1) /\
  1 <= t / l + 1 /\
  Links.get last (linkObject o) = Some lastEntry /\
  setLinkHeader o =
  headerOf
    ([ buildLink first o; lastEntry ] ++
     (if hasNextPage o then [ buildLink next o ] else []) ++
     (if isFirstPage o then [] else [ buildLink prev o ])).
Proof.
  intros Hl Ht Ll Lt lastEntry.
  split; [ | split; [ | split ] ].
  - rewrite (lastPage_integers o l t Hl Ht Ll Lt). apply asInteger_inject_Z.
  - assert (0 <= t / l) by (apply Z.div_pos; lia). lia.
  - rewrite get_last. f_equal. now apply buildLink_last_integers.
  - rewrite header_linkObject.
    now rewrite (buildLink_last_integers o l t Hl Ht Ll Lt).
Qed.

Lemma last_page_at_least_1_witness :
  (1 <= 10 <= 2 ^ 53 /\ 0 <= 25 < 2 ^ 53) /\
  asInteger (add (floor (div (Fin 25) (Number "10"))) one) = Some 3 /\
  1 <= 3 /\
  Links.get last (linkObject scenarioA)
    = Some (Link.make "/items?page=3&per_page=10" last "10" "1") /\
  setLinkHeader scenarioA =
  headerOf [ Link.make "/items?page=1&per_page=10" first "10" "1";
             Link.make "/items?page=3&per_page=10" last "10" "1";
             Link.make "/items?page=2&per_page=10" next "10" "2" ].
Proof.
  split; [ lia | ].
  pose proof (last_page_at_least_1 scenarioA 10 25
                ltac:(vm_compute; reflexivity) ltac:(vm_compute; reflexivity)
                ltac:(lia) ltac:(lia))
    as H.
  vm_compute in H |- *. exact H.
Defined.

(** C7, as stated, fails at totalDocs = 2^53: with one document per page
    floor(totalDocs / limit) + 1 is 2^53 + 1, but the sum is rounded and
    the [last] link names page 2^53. *)
Lemma last_page_at_2_53_is_rounded :
  let o := LinkOptions.make "1" "1" "/items" (Fin 9007199254740992) in
  asInteger (Number (LinkOptions.limit o)) = Some 1 /\
  asInteger (LinkOptions.totalDocs o) = Some 9007199254740992 /\
  9007199254740992 / 1 + 1 = 9007199254740993 /\
  asInteger (add (floor (div (LinkOptions.totalDocs o)
                             (Number (LinkOptions.limit o)))) one)
    = Some 9007199254740992 /\
  Links.get last (linkObject o)
    = Some (Link.make "/items?page=9007199254740992&per_page=1" last "1" "1").
Proof. repeat split; vm_compute; reflexivity. Qed.

(** C8. Whatever the input, the header is the serialization of a [first]
    entry, a [last] entry and the entries that follow them, and the URL of
    every entry is the resource URL followed by ?page=, a printed number,
    &per_page= and the limit, in that order. *)
Theorem first_last_present_and_url_shape (o : LinkOptions.t) :
  In first (Links.keys (linkObject o)) /\
  In last (Links.keys (linkObject o)) /\
  (forall (rel : Relation) (link : Link.t),
    In (rel, link) (linkObject o) ->
    exists x : number,
      Link.url link =
      (LinkOptions.resourceUrl o ++ "?page=" ++ toString x ++
       "&per_page=" ++ LinkOptions.limit o)%string) /\
  exists (firstEntry lastEntry : Link.t) (others : list Link.t),
    setLinkHeader o = headerOf (firstEntry :: lastEntry :: others) /\
    Link.rel firstEntry = first /\ Link.rel lastEntry = last /\
    forall link : Link.t,
      In link (firstEntry :: lastEntry :: others) ->
      exists x : number,
        Link.url link =
        (LinkOptions.resourceUrl o ++ "?page=" ++ toString x ++
         "&per_page=" ++ LinkOptions.limit o)%string.
Proof.
  assert (U : forall r, exists x : number,
            Link.url (buildLink r o) =
            (LinkOptions.resourceUrl o ++ "?page=" ++ toString x ++
             "&per_page=" ++ LinkOptions.limit o)%string).
  { intros r. destruct r.
    - exists one. now rewrite buildLink_first.
    - exists (add (Number (LinkOptions.page o)) one). now rewrite buildLink_next.
    - exists (sub (Number (LinkOptions.page o)) one). now rewrite buildLink_prev.
    - exists (add (floor (div (LinkOptions.totalDocs o)
                              (Number (LinkOptions.limit o)))) one).
      now rewrite buildLink_last. }
  split; [ | split; [ | split ] ].
  - rewrite keys_linkObject. simpl. auto.
  - rewrite keys_linkObject. simpl. auto.
  - intros rel link H.
    assert (B : exists r, link = buildLink r o).
    { unfold linkObject in H.
      destruct (hasNextPage o), (isFirstPage o); simpl in H;
        repeat (destruct H as [H | H]; [ injection H as _ <-; eauto | ]);
        destruct H. }
    destruct B as [r ->]. apply U.
  - exists (buildLink first o), (buildLink last o),
      ((if hasNextPage o then [buildLink next o] else []) ++
       (if isFirstPage o then [] else [buildLink prev o]))%list.
    split; [ apply header_linkObject | ].
    split; [ reflexivity | ]. split; [ reflexivity | ].
    intros link H.
    assert (B : exists r, link = buildLink r o).
    { destruct (hasNextPage o), (isFirstPage o); simpl in H;
        repeat (destruct H as [H | H]; [ subst link; eauto | ]);
        destruct H. }
    destruct B as [r ->]. apply U.
Qed.

(** C9. When the page or the per_page string is no numeric literal, its
    coercion is NaN, and the header is returned all the same with NaN
    printed into it: a link of the object has the URL
    resourceUrl?page=NaN&per_page=<limit>, and that URL occurs in the
    returned string. *)
Theorem nan_reaches_header (o : LinkOptions.t) :
  Number (LinkOptions.page o) = NaN \/ Number (LinkOptions.limit o) = NaN ->
  exists (rel : Relation) (link : Link.t),
    Links.get rel (linkObject o) = Some link /\
    Link.url link = pageUrl o "NaN" /\
    occursIn (pageUrl o "NaN") (setLinkHeader o).
Proof.
  intros [Hp | Hl].
  - exists prev, (buildLink prev o).
    assert (G : Links.get prev (linkObject o) = Some (buildLink prev o)).
    { rewrite get_prev. unfold isFirstPage. now rewrite Hp. }
    assert (U : Link.url (buildLink prev o) = pageUrl o "NaN").
    { rewrite buildLink_prev, Hp. reflexivity. }
    repeat split; [ exact G | exact U | ].
    rewrite <- U. now apply (url_in_header prev).
  - exists last, (buildLink last o).
    assert (U : Link.url (buildLink last o) = pageUrl o "NaN").
    { rewrite buildLink_last, Hl.
      now destruct (LinkOptions.totalDocs o) as [ | s | | q ]. }
    repeat split; [ apply get_last | exact U | ].
    rewrite <- U. apply (url_in_header last), get_last.
Qed.

Lemma nan_reaches_header_witness :
  Number "abc" = NaN /\
  exists (rel : Relation) (link : Link.t),
    Links.get rel (linkObject (LinkOptions.make "abc" "10" "/items" (Fin 10)))
      = Some link /\
    Link.url link = "/items?page=NaN&per_page=10"%string /\
    occursIn "/items?page=NaN&per_page=10"
             (setLinkHeader (LinkOptions.make "abc" "10" "/items" (Fin 10))).
Proof.
  split; [ reflexivity | ].
  apply (nan_reaches_header (LinkOptions.make "abc" "10" "/items" (Fin 10))).
  left. reflexivity.
Defined.

(** C10. The [prev] link hangs on Number(page) being different from 1, and
    the previous page is never clamped: for a page string whose numeric
    value is 0 or below the header ends with a [prev] entry whose page
    attribute and URL page parameter are Number(page) - 1 as the code
    computes and prints it, a number of -1 or below; when Number(page) is an
    integer p above -2^53 that number is p - 1. *)
Theorem prev_link_below_first_page (o : LinkOptions.t) :
  le (Number (LinkOptions.page o)) (Fin 0) = true ->
  let previous := sub (Number (LinkOptions.page o)) one in
  let prevEntry :=
    Link.make (pageUrl o (toString previous)) prev
              (LinkOptions.limit o) (toString previous) in
  isFirstPage o = false /\
  le previous (Fin (- (1))) = true /\
  Links.get prev (linkObject o) = Some prevEntry /\
  setLinkHeader o =
  headerOf
    ([ buildLink first o; buildLink last o ] ++
     (if hasNextPage o then [ buildLink next o ] else []) ++
     [ prevEntry ]) /\
  forall p : Z,
    asInteger (Number (LinkOptions.page o)) = Some p -> - 2 ^ 53 < p ->
    p - 1 <= -1 /\ toString previous = pageString (p - 1).
Proof.
  intros Hp previous prevEntry.
  destruct (nonpositive_page _ Hp) as [F L].
  assert (F' : isFirstPage o = false) by exact F.
  split; [ exact F' | split; [ exact L | split; [ | split ] ] ].
  - now rewrite get_prev, F', buildLink_prev.
  - now rewrite header_linkObject, F', buildLink_prev.
  - intros p Ip Bp.
    assert (E : le (Number (LinkOptions.page o)) (Fin 0) = (p <=? 0))
      by exact (le_asInteger _ _ p 0 Ip (asInteger_inject_Z 0)).
    rewrite E in Hp. apply Z.leb_le in Hp. split; [ lia | ].
    subst previous. now rewrite (sub_one_integer _ _ Ip) by lia.
Qed.

Lemma prev_link_below_first_page_witness :
  le (Number "0") (Fin 0) = true /\
  isFirstPage (LinkOptions.make "0" "10" "/items" (Fin 10)) = false /\
  le (sub (Number "0") one) (Fin (- (1))) = true /\
  Links.get prev (linkObject (LinkOptions.make "0" "10" "/items" (Fin 10)))
    = Some (Link.make "/items?page=-1&per_page=10" prev "10" "-1") /\
  setLinkHeader (LinkOptions.make "0" "10" "/items" (Fin 10)) =
  headerOf [ Link.make "/items?page=1&per_page=10" first "10" "0";
             Link.make "/items?page=2&per_page=10" last "10" "0";
             Link.make "/items?page=1&per_page=10" next "10" "1";
             Link.make "/items?page=-1&per_page=10" prev "10" "-1" ].
Proof.
  split; [ vm_compute; reflexivity | ].
  pose proof (prev_link_below_first_page
                (LinkOptions.make "0" "10" "/items" (Fin 10))
                ltac:(vm_compute; reflexivity))
    as [H1 [H2 [H3 [H4 _]]]].
  split; [ | split; [ | split ] ].
  - vm_compute in H1 |- *. exact H1.
  - vm_compute in H2 |- *. exact H2.
  - vm_compute in H3 |- *. exact H3.
  - vm_compute in H4 |- *. exact H4.
Defined.

(** The page before page -2^53 is printed as the code computes it: the
    difference is rounded back to -2^53. *)
Example prev_link_below_minus_2_53 :
  Links.get prev
    (linkObject (LinkOptions.make "-9007199254740992" "10" "/items" (Fin 10)))
  = Some (Link.make "/items?page=-9007199254740992&per_page=10" prev "10"
                    "-9007199254740992").
Proof. vm_compute. reflexivity. Qed.

End Pagination.

(** ** Further facts: the link object on any input *)
Module LinkObjectFacts.
Import JS JSFacts LinkHeaderInterceptor LinkFacts.

Local Open Scope Z_scope.

Lemma entry_is_built (o : LinkOptions.t) (rel : Relation) (link : Link.t) :
  In (rel, link) (linkObject o) -> link = buildLink rel o.
Proof.
  unfold linkObject.
  destruct (hasNextPage o), (isFirstPage o); simpl; intros H;
    repeat (destruct H as [H | H]; [ now injection H as <- <- | ]);
    destruct H.
Qed.

Lemma rel_buildLink (o : LinkOptions.t) (rel : Relation) :
  Link.rel (buildLink rel o) = rel /\
  Link.per_page (buildLink rel o) = LinkOptions.limit o.
Proof. now destruct rel. Qed.

End LinkObjectFacts.

(** ** Further properties of the link header *)
Module Coverage.
Import JS JSFacts LinkHeaderInterceptor LinkFacts LinkObjectFacts.

Local Open Scope Z_scope.

(** X1. Whatever the input, the link object holds between two and four
    entries, no relation twice; each entry sits under its own relation, is
    the one a lookup of that relation returns, and carries the limit string
    unchanged as its per_page attribute. *)
Theorem entries_are_coherent (o : LinkOptions.t) :
  NoDup (Links.keys (linkObject o)) /\
  (2 <= List.length (linkObject o) <= 4)%nat /\
  forall (rel : Relation) (link : Link.t),
    In (rel, link) (linkObject o) ->
    Link.rel link = rel /\
    Link.per_page link = LinkOptions.limit o /\
    Links.get rel (linkObject o) = Some link.
Proof.
  split; [ | split ].
  - rewrite keys_linkObject.
    destruct (hasNextPage o), (isFirstPage o); simpl;
      repeat constructor; simpl; intuition discriminate.
  - unfold linkObject.
    destruct (hasNextPage o), (isFirstPage o); simpl; lia.
  - intros rel link H.
    pose proof (entry_is_built o rel link H) as ->.
    destruct (rel_buildLink o rel) as [R P].
    repeat split; [ exact R | exact P | ].
    revert H. unfold linkObject.
    destruct (hasNextPage o), (isFirstPage o); simpl; intros H;
      repeat (destruct H as [H | H]; [ now injection H as <- | ]);
      destruct H.
Qed.

(** X2. A page beyond the last one is not clamped: for integers
    1 <= limit <= 2^53, 0 <= totalDocs < 2^53 and
    floor(totalDocs / limit) + 1 < page <= 2^53 there is no [next] entry,
    and the [prev] entry points to page - 1, which is the last page or a
    page past it. *)
Theorem page_beyond_last_is_not_clamped (o : LinkOptions.t) (p l t : Z) :
  asInteger (Number (LinkOptions.page o)) = Some p ->
  asInteger (Number (LinkOptions.limit o)) = Some l ->
  asInteger (LinkOptions.totalDocs o) = Some t ->
  1 <= l <= 2 ^ 53 -> 0 <= t < 2 ^ 53 -> t / l + 1 < p <= 2 ^ 53 ->
  Links.get next (linkObject o) = None /\
  Links.get prev (linkObject o) =
    Some (Link.make (pageUrl o (pageString (p - 1))) prev
                    (LinkOptions.limit o) (pageString (p - 1))) /\
  Links.get last (linkObject o) =
    Some (Link.make (pageUrl o (pageString (t / l + 1))) last
                    (LinkOptions.limit o) (LinkOptions.page o)) /\
  t / l + 1 <= p - 1.
Proof.
  intros Hp Hl Ht Ll Lt Lp.
  assert (0 <= t / l) by (apply Z.div_pos; lia).
  split; [ | split; [ | split ] ]; [ | | | lia ].
  - rewrite get_next, (hasNextPage_integers o p l t Hp Hl Ht) by lia.
    now replace (p <=? t / l) with false by (symmetry; apply Z.leb_gt; lia).
  - rewrite get_prev, (isFirstPage_integer o p Hp).
    replace (p =? 1) with false by (symmetry; apply Z.eqb_neq; lia).
    now rewrite (buildLink_prev_integer o p Hp) by lia.
  - rewrite get_last. f_equal. now apply buildLink_last_integers.
Qed.

Lemma page_beyond_last_is_not_clamped_witness :
  (1 <= 10 <= 2 ^ 53 /\ 0 <= 25 < 2 ^ 53 /\ 25 / 10 + 1 < 7 <= 2 ^ 53) /\
  Links.get next (linkObject (LinkOptions.make "7" "10" "/items" (Fin 25))) = None /\
  Links.get prev (linkObject (LinkOptions.make "7" "10" "/items" (Fin 25)))
    = Some (Link.make "/items?page=6&per_page=10" prev "10" "6") /\
  Links.get last (linkObject (LinkOptions.make "7" "10" "/items" (Fin 25)))
    = Some (Link.make "/items?page=3&per_page=10" last "10" "7") /\
  3 <= 6.
Proof.
  split; [ repeat split; try lia; reflexivity | ].
  pose proof (page_beyond_last_is_not_clamped
                (LinkOptions.make "7" "10" "/items" (Fin 25)) 7 10 25
                ltac:(vm_compute; reflexivity) ltac:(vm_compute; reflexivity)
                ltac:(vm_compute; reflexivity) ltac:(lia) ltac:(lia)
                ltac:(split; [ reflexivity | lia ]))
    as H.
  vm_compute in H |- *. exact H.
Defined.

(** X3. A negative limit is not rejected: for integers page >= 1,
    -2^53 <= limit < 0 and 0 < totalDocs <= 2^53 the [last] link points to
    floor(totalDocs / limit) + 1, a page number of 0 or below, and there is
    no [next] entry. *)
Theorem negative_limit_last_page_below_1 (o : LinkOptions.t) (p l t : Z) :
  asInteger (Number (LinkOptions.page o)) = Some p ->
  asInteger (Number (LinkOptions.limit o)) = Some l ->
  asInteger (LinkOptions.totalDocs o) = Some t ->
  1 <= p -> - 2 ^ 53 <= l < 0 -> 0 < t <= 2 ^ 53 ->
  Links.get last (linkObject o) =
    Some (Link.make (pageUrl o (pageString (t / l + 1))) last
                    (LinkOptions.limit o) (LinkOptions.page o)) /\
  t / l + 1 <= 0 /\
  Links.get next (linkObject o) = None.
Proof.
  intros Hp Hl Ht Lp Ll Lt.
  assert (F : asInteger (floor (div (LinkOptions.totalDocs o)
                                    (Number (LinkOptions.limit o))))
              = Some (t / l)).
  { now apply floor_div_negative. }
  assert (Q : - t <= t / l <= -1).
  { pose proof (Z.div_mod t l ltac:(lia)) as D.
    pose proof (Z.mod_neg_bound t l ltac:(lia)) as B. nia. }
  split; [ | split ]; [ | lia | ].
  - rewrite get_last, buildLink_last.
    now rewrite (add_one_integer _ _ F) by lia.
  - rewrite get_next. unfold hasNextPage.
    rewrite (le_asInteger _ _ p (t / l) Hp F).
    now replace (p <=? t / l) with false by (symmetry; apply Z.leb_gt; lia).
Qed.

Lemma negative_limit_last_page_below_1_witness :
  (1 <= 1 /\ - 2 ^ 53 <= -10 < 0 /\ 0 < 25 <= 2 ^ 53) /\
  Links.get last (linkObject (LinkOptions.make "1" "-10" "/items" (Fin 25)))
    = Some (Link.make "/items?page=-2&per_page=-10" last "-10" "1") /\
  -2 <= 0 /\
  Links.get next (linkObject (LinkOptions.make "1" "-10" "/items" (Fin 25))) = None.
Proof.
  split; [ lia | ].
  pose proof (negative_limit_last_page_below_1
                (LinkOptions.make "1" "-10" "/items" (Fin 25)) 1 (-10) 25
                ltac:(vm_compute; reflexivity) ltac:(vm_compute; reflexivity)
                ltac:(vm_compute; reflexivity) ltac:(lia) ltac:(lia) ltac:(lia))
    as H.
  vm_compute in H |- *. exact H.
Defined.

(** X4. A document count of NaN ends the pagination: whatever the page and
    the limit, there is no [next] entry and the [last] link is to page NaN. *)
Theorem nan_total_has_no_next (o : LinkOptions.t) :
  LinkOptions.totalDocs o = NaN ->
  Links.get next (linkObject o) = None /\
  Links.get last (linkObject o) =
    Some (Link.make (pageUrl o "NaN") last
                    (LinkOptions.limit o) (LinkOptions.page o)).
Proof.
  intros Ht. split.
  - rewrite get_next. unfold hasNextPage. rewrite Ht.
    now destruct (Number (LinkOptions.page o)) as [ | [] | | q ].
  - now rewrite get_last, buildLink_last, Ht.
Qed.

Lemma nan_total_has_no_next_witness :
  Links.get next (linkObject (LinkOptions.make "1" "10" "/items" NaN)) = None /\
  Links.get last (linkObject (LinkOptions.make "1" "10" "/items" NaN))
    = Some (Link.make "/items?page=NaN&per_page=10" last "10" "1").
Proof.
  apply (nan_total_has_no_next (LinkOptions.make "1" "10" "/items" NaN)).
  reflexivity.
Defined.

End Coverage.

(** ** Facts about the request pipeline *)
Module InterceptFacts.
Import JS JSFacts LinkHeaderInterceptor LinkFacts Intercept.

Lemma lookup_store (key key' value : string) (entries : list (string * string)) :
  Response.lookup key (Response.store key' value entries) =
  if String.eqb key key' then Some value else Response.lookup key entries.
Proof.
  induction entries as [ | [k v] entries IH ]; simpl.
  - reflexivity.
  - destruct (String.eqb_spec key' k) as [-> | N]; simpl.
    + now destruct (String.eqb key k).
    + rewrite IH.
      destruct (String.eqb_spec key k) as [-> | N'].
      * destruct (String.eqb_spec k key') as [-> | _]; [ now contradiction N | ].
        reflexivity.
      * reflexivity.
Qed.

(** the response after a stream of values whose headers Node accepts *)
Lemma intercept_accepted {T : Type} (request : Request.t)
    (handle : list (Data.t T)) (response : Response.t) :
  Response.headersSent response = false ->
  Forall (fun data =>
            Response.validValue (setLinkHeader (linkOptionsOf request data)) = true)
         handle ->
  intercept request handle response =
  Outcome
    (fold_left
       (fun r data =>
          Response.make false
            (Response.store "link" (setLinkHeader (linkOptionsOf request data))
                            (Response.headers r)))
       handle response)
    (map (fun _ => tt) handle) false.
Proof.
  intros S V. revert response S.
  induction V as [ | data handle Hd V IH ]; intros response S.
  - reflexivity.
  - cbn [intercept fold_left map]. unfold Response.setHeader.
    rewrite S, Hd. cbn [negb].
    change (Response.validName "Link") with true. cbn [negb].
    change (Response.toLowerCase "Link") with "link"%string.
    now rewrite IH.
Qed.

Lemma forallChars_app (p : ascii -> bool) (a b : string) :
  Response.forallChars p (a ++ b)
  = Response.forallChars p a && Response.forallChars p b.
Proof.
  induction a as [ | c a IH ]; simpl; [ reflexivity | ].
  now rewrite IH, andb_assoc.
Qed.

Lemma forallChars_hasChar (p : ascii -> bool) (c : ascii) (s : string) :
  hasChar c s = true -> p c = false -> Response.forallChars p s = false.
Proof.
  induction s as [ | x s IH ]; simpl; [ discriminate | ].
  destruct (Ascii.eqb_spec x c) as [-> | N]; simpl.
  - intros _ H. now rewrite H.
  - intros H P. rewrite (IH H P). apply andb_false_r.
Qed.

Lemma forallChars_occursIn (p : ascii -> bool) (needle s : string) :
  occursIn needle s -> Response.forallChars p needle = false ->
  Response.forallChars p s = false.
Proof.
  intros [a [b ->]] H. rewrite !forallChars_app, H.
  now rewrite andb_false_r.
Qed.

(** the first piece of a split: the text before the first separator *)
Lemma split_first (sep : ascii) (s : string) :
  hasChar sep (hd EmptyString (split sep s)) = false /\
  (s = hd EmptyString (split sep s) \/
   exists rest, s = hd EmptyString (split sep s) ++ String sep rest).
Proof.
  induction s as [ | c s [IH1 IH2] ]; simpl.
  - split; [ reflexivity | now left ].
  - destruct (Ascii.eqb_spec c sep) as [-> | N]; simpl.
    + split; [ reflexivity | right; now exists s ].
    + destruct (split sep s) as [ | piece pieces ]; simpl in *.
      * replace (Ascii.eqb c sep) with false
          by (symmetry; now apply Ascii.eqb_neq).
        split; [ reflexivity | ].
        destruct IH2 as [-> | [rest ->]]; [ now left | ].
        right. now exists rest.
      * replace (Ascii.eqb c sep) with false
          by (symmetry; now apply Ascii.eqb_neq).
        split; [ exact IH1 | ].
        destruct IH2 as [E | [rest E]].
        -- left. now rewrite <- E.
        -- right. exists rest. now rewrite E at 1.
Qed.

End InterceptFacts.

(** ** Properties of the request pipeline *)
Module Pipeline.
Import JS JSFacts LinkHeaderInterceptor LinkFacts LinkObjectFacts.
Import Intercept InterceptFacts.

Local Open Scope Z_scope.

(** X6. When the head of the response is not sent yet and Node accepts the
    header built for every value of the stream, [intercept] ends without
    error: the Link header of the response, read under any spelling of its
    name, is the header built from the last value emitted, every other
    header reads as before, and the mapped stream has emitted one value for
    each value of the handler. *)
Theorem intercept_sets_link_header {T : Type} (request : Request.t)
    (before : list (Data.t T)) (data : Data.t T) (response : Response.t)
    (name : string) :
  Response.headersSent response = false ->
  Forall (fun d =>
            Response.validValue (setLinkHeader (linkOptionsOf request d)) = true)
         (before ++ [data]) ->
  let result := intercept request (before ++ [data]) response in
  failed result = false /\
  Response.getHeader name (Intercept.response result) =
  (if String.eqb (Response.toLowerCase name) "link"
   then Some (setLinkHeader (linkOptionsOf request data))
   else Response.getHeader name response) /\
  List.length (emitted result) = S (List.length before).
Proof.
  intros S V result. subst result.
  rewrite (intercept_accepted request _ response S V).
  cbn [failed Intercept.response emitted].
  split; [ reflexivity | split ].
  - rewrite fold_left_app. cbn [fold_left].
    unfold Response.getHeader at 1. cbn [Response.headers].
    rewrite lookup_store.
    destruct (String.eqb (Response.toLowerCase name) "link") eqn:E;
      [ reflexivity | ].
    clear V. induction before as [ | d before IH ] using rev_ind;
      [ reflexivity | ].
    rewrite fold_left_app. cbn [fold_left Response.headers].
    now rewrite lookup_store, E.
  - rewrite length_map, length_app. simpl. lia.
Qed.

Lemma intercept_sets_link_header_witness :
  let request := Request.make "/items?page=2" (Some "2"%string) None in
  let response := Response.make false [("link", "stale"); ("etag", "7")]%string in
  let result :=
    intercept request [Data.make [tt] (Fin 10); Data.make [tt] (Fin 250)] response in
  failed result = false /\
  Response.getHeader "LINK" (Intercept.response result)
    = Some (setLinkHeader (LinkOptions.make "2" "100" "/items" (Fin 250))) /\
  List.length (emitted result) = 2%nat.
Proof.
  pose proof (intercept_sets_link_header
                (Request.make "/items?page=2" (Some "2"%string) None)
                [Data.make [tt] (Fin 10)] (Data.make [tt] (Fin 250))
                (Response.make false [("link", "stale"); ("etag", "7")]%string)
                "LINK" eq_refl
                ltac:(repeat constructor; vm_compute; reflexivity))
    as H.
  vm_compute in H |- *. exact H.
Defined.

(** X14. A per_page parameter with a character Node refuses in a header
    value, a line feed for one, makes [setHeader] throw on the first value
    of the stream: the mapped stream ends in that error without emitting
    anything and the response is left as it was. *)
Theorem intercept_fails_on_refused_character {T : Type} (request : Request.t)
    (data : Data.t T) (rest : list (Data.t T)) (response : Response.t)
    (per_page : string) (c : ascii) :
  Request.query_per_page request = Some per_page ->
  hasChar c per_page = true -> Response.valueChar c = false ->
  intercept request (data :: rest) response = Outcome response [] true.
Proof.
  intros Q H C. cbn [intercept].
  assert (V : Response.validValue (setLinkHeader (linkOptionsOf request data))
              = false).
  { unfold Response.validValue.
    apply forallChars_occursIn with (needle := per_page);
      [ | now apply (forallChars_hasChar _ c) ].
    apply occursIn_trans
      with (b := Link.url (buildLink first (linkOptionsOf request data))).
    - rewrite buildLink_first. unfold pageUrl, linkOptionsOf.
      cbn [LinkOptions.limit LinkOptions.resourceUrl]. rewrite Q. cbn [nullish].
      exists (hd EmptyString (split "?" (Request.url request))
              ++ "?page=1&per_page=")%string, EmptyString.
      assert (N : forall s : string, (s ++ EmptyString)%string = s).
      { clear. intros s. induction s as [ | x s IH ]; simpl;
          [ reflexivity | now rewrite IH ]. }
      rewrite N, append_assoc. reflexivity.
    - apply (url_in_header first). apply get_first. }
  unfold Response.setHeader. rewrite V.
  destruct (Response.headersSent response); [ reflexivity | ].
  now destruct (negb (Response.validName "Link")).
Qed.

Lemma intercept_fails_on_refused_character_witness :
  intercept (Request.make "/items?per_page=%0A" None (Some (String "010" EmptyString)))
            [Data.make [tt] (Fin 10)] (Response.make false [])
  = Outcome (Response.make false []) [] true.
Proof.
  apply (intercept_fails_on_refused_character
           (Request.make "/items?per_page=%0A" None (Some (String "010" EmptyString)))
           (Data.make [tt] (Fin 10)) [] (Response.make false [])
           (String "010" EmptyString) "010");
    [ reflexivity | reflexivity | reflexivity ].
Defined.

(** X7. The resource URL of the links is the request URL up to its first
    question mark: it holds no question mark, and the request URL is the
    resource URL alone or the resource URL, a question mark and the rest. *)
Theorem resource_url_drops_query {T : Type} (request : Request.t)
    (data : Data.t T) :
  let resourceUrl := LinkOptions.resourceUrl (linkOptionsOf request data) in
  hasChar "?" resourceUrl = false /\
  (Request.url request = resourceUrl \/
   exists rest, Request.url request = (resourceUrl ++ String "?" rest)%string).
Proof. apply split_first. Qed.

(** X8. A request without page and per_page parameters is page 1 of pages
    of 100: for an integer document count 0 <= t < 2^53 the links are
    [first] and [last], to pages 1 and floor(t / 100) + 1, followed by a
    [next] link to page 2 exactly when t >= 100, and there is never a
    [prev] link. *)
Theorem defaults_without_query {T : Type} (request : Request.t)
    (data : Data.t T) (t : Z) :
  Request.query_page request = None ->
  Request.query_per_page request = None ->
  asInteger (Data.totalDocs data) = Some t ->
  0 <= t < 2 ^ 53 ->
  let o := linkOptionsOf request data in
  linkObject o =
  ([ (first, Link.make (pageUrl o "1") first "100" "1");
     (last, Link.make (pageUrl o (pageString (t / 100 + 1))) last "100" "1") ]
   ++ (if 100 <=? t
       then [ (next, Link.make (pageUrl o "2") next "100" "2") ]
       else []))%list /\
  LinkOptions.limit o = "100"%string.
Proof.
  intros Qp Ql Ht Lt o.
  assert (Po : LinkOptions.page o = "1"%string).
  { unfold o, linkOptionsOf. now rewrite Qp. }
  assert (Lo : LinkOptions.limit o = "100"%string).
  { unfold o, linkOptionsOf. now rewrite Ql. }
  assert (Hp : asInteger (Number (LinkOptions.page o)) = Some 1).
  { rewrite Po. vm_compute. reflexivity. }
  assert (Hl : asInteger (Number (LinkOptions.limit o)) = Some 100).
  { rewrite Lo. vm_compute. reflexivity. }
  assert (Hn : hasNextPage o = (100 <=? t)).
  { rewrite (hasNextPage_integers o 1 100 t Hp Hl Ht) by lia.
    destruct (Z.leb_spec 100 t) as [L | L].
    - apply Z.leb_le. apply Z.div_le_lower_bound; lia.
    - apply Z.leb_gt. assert (t / 100 < 1) by (apply Z.div_lt_upper_bound; lia).
      lia. }
  split; [ | exact Lo ].
  unfold linkObject.
  rewrite Hn, (isFirstPage_integer o 1 Hp).
  rewrite buildLink_first, (buildLink_last_integers o 100 t Hl Ht) by lia.
  rewrite (buildLink_next_integer o 1 Hp) by lia. rewrite Po, Lo.
  change (pageString (1 + 1)) with (pageString 2).
  replace (pageString 2) with "2"%string by (vm_compute; reflexivity).
  now destruct (100 <=? t).
Qed.

Lemma defaults_without_query_witness :
  0 <= 250 < 2 ^ 53 /\
  linkObject (linkOptionsOf (Request.make "/items?sort=name" None None)
                            (Data.make [tt] (Fin 250))) =
  [ (first, Link.make "/items?page=1&per_page=100" first "100" "1");
    (last, Link.make "/items?page=3&per_page=100" last "100" "1");
    (next, Link.make "/items?page=2&per_page=100" next "100" "2") ].
Proof.
  split; [ lia | ].
  pose proof (defaults_without_query (Request.make "/items?sort=name" None None)
                                     (Data.make [tt] (Fin 250)) 250
                                     eq_refl eq_refl
                                     ltac:(vm_compute; reflexivity) ltac:(lia))
    as [H _].
  vm_compute in H |- *. exact H.
Defined.

(** X9. A page parameter that is present but empty is not replaced by the
    default: it counts as page 0, so that whatever the limit and the
    document count the links include a [prev] link to page -1, and the
    [first] entry carries the empty string as its page attribute. *)
Theorem empty_page_parameter_is_page_0 {T : Type} (request : Request.t)
    (data : Data.t T) :
  Request.query_page request = Some EmptyString ->
  let o := linkOptionsOf request data in
  Links.get prev (linkObject o) =
    Some (Link.make (pageUrl o "-1") prev (LinkOptions.limit o) "-1") /\
  Links.get first (linkObject o) =
    Some (Link.make (pageUrl o "1") first (LinkOptions.limit o) EmptyString).
Proof.
  intros Qp o.
  assert (Po : LinkOptions.page o = EmptyString).
  { unfold o, linkOptionsOf. now rewrite Qp. }
  assert (Hp : asInteger (Number (LinkOptions.page o)) = Some 0).
  { now rewrite Po. }
  split.
  - rewrite get_prev, (isFirstPage_integer o 0 Hp).
    now rewrite (buildLink_prev_integer o 0 Hp).
  - now rewrite get_first, buildLink_first, Po.
Qed.

Lemma empty_page_parameter_is_page_0_witness :
  Links.get prev
    (linkObject (linkOptionsOf (Request.make "/items?page=" (Some EmptyString) None)
                               (Data.make [tt] (Fin 250))))
  = Some (Link.make "/items?page=-1&per_page=100" prev "100" "-1") /\
  Links.get first
    (linkObject (linkOptionsOf (Request.make "/items?page=" (Some EmptyString) None)
                               (Data.make [tt] (Fin 250))))
  = Some (Link.make "/items?page=1&per_page=100" first "100" EmptyString).
Proof.
  apply (empty_page_parameter_is_page_0
           (Request.make "/items?page=" (Some EmptyString) None)
           (Data.make [tt] (Fin 250))).
  reflexivity.
Defined.

End Pipeline.

(** ** Reading back the page numbers the links print *)
Module DigitFacts.
Import JS JSFacts Intercept.

Local Open Scope Z_scope.

(** what the parser sees in a decimal digit *)
Lemma isDigit_char (c : ascii) :
  isDigit c = true ->
  isWhiteSpace c = false /\
  digit 10 c = Some (code c - 48) /\
  0 <= code c - 48 <= 9 /\
  Ascii.eqb c "-" = false /\ Ascii.eqb c "+" = false /\
  Ascii.eqb c "." = false /\ Ascii.eqb c "I" = false /\
  (Ascii.eqb c "x" || Ascii.eqb c "X") = false /\
  (Ascii.eqb c "o" || Ascii.eqb c "O") = false /\
  (Ascii.eqb c "b" || Ascii.eqb c "B") = false.
Proof.
  destruct c as [[] [] [] [] [] [] [] []];
    try (intros H; discriminate H); intros _; vm_compute; intuition congruence.
Qed.

Lemma allDigits_app (a b : string) :
  allDigits (a ++ b) = allDigits a && allDigits b.
Proof.
  induction a as [ | c a IH ]; simpl; [ reflexivity | ].
  now rewrite IH, andb_assoc.
Qed.

Lemma allDigits_zeros (n : nat) : allDigits (zeros n) = true.
Proof. induction n as [ | n IH ]; simpl; [ reflexivity | exact IH ]. Qed.

Lemma allDigits_string_of_uint (d : Decimal.uint) :
  allDigits (NilEmpty.string_of_uint d) = true.
Proof. induction d; simpl; auto. Qed.

Lemma length_string_of_uint (d : Decimal.uint) :
  String.length (NilEmpty.string_of_uint d) = Decimal.nb_digits d.
Proof. induction d; simpl; auto. Qed.

Lemma trimStart_digits (s : string) : allDigits s = true -> trimStart s = s.
Proof.
  destruct s as [ | c s ]; simpl; [ reflexivity | ].
  intros H. apply andb_prop in H as [H _].
  now rewrite (proj1 (isDigit_char c H)).
Qed.

Lemma trimEnd_digits (s : string) : allDigits s = true -> trimEnd s = s.
Proof.
  induction s as [ | c s IH ]; simpl; [ reflexivity | ].
  intros H. apply andb_prop in H as [Hc Hs].
  rewrite (IH Hs). destruct s; [ | reflexivity ].
  now rewrite (proj1 (isDigit_char c Hc)).
Qed.

(** a string of digits is read to its end *)
Lemma digits_allDigits (s : string) (acc count : Z) :
  allDigits s = true ->
  exists v, digits 10 s acc count
            = (v, count + Z.of_nat (String.length s), EmptyString).
Proof.
  revert acc count. induction s as [ | c s IH ]; simpl; intros acc count H.
  - exists acc. now rewrite Z.add_0_r.
  - apply andb_prop in H as [Hc Hs].
    destruct (isDigit_char c Hc) as [_ [D _]]. rewrite D.
    destruct (IH (acc * 10 + (code c - 48)) (count + 1) Hs) as [v E].
    exists v. rewrite E. do 2 f_equal. lia.
Qed.

Lemma decimal_allDigits (s : string) (v : Z) :
  allDigits s = true -> s <> EmptyString ->
  fst (fst (digits 10 s 0 0)) = v ->
  signOf s = (false, s) /\
  String.eqb s "Infinity" = false /\
  decimal s = Some (inject_Z v).
Proof.
  intros H N V.
  destruct (digits_allDigits s 0 0 H) as [v' E].
  rewrite E in V. simpl in V. subst v'.
  destruct s as [ | c s ]; [ now contradiction N | ].
  pose proof H as H'. simpl in H'. apply andb_prop in H' as [Hc _].
  destruct (isDigit_char c Hc) as [_ [_ [_ [M [P [_ [I _]]]]]]].
  repeat split.
  - unfold signOf. now rewrite M, P.
  - simpl. now rewrite I.
  - unfold decimal. rewrite E.
    replace (0 + Z.of_nat (String.length (String c s)) + 0 =? 0) with false
      by (symmetry; apply Z.eqb_neq; simpl String.length; lia).
    cbn [exponent]. unfold scale10.
    change (0 - 0) with 0. change (0 <=? 0) with true. cbn iota.
    change (10 ^ 0) with 1. now rewrite Z.mul_1_r.
Qed.

Lemma literal_allDigits (s : string) :
  allDigits s = true -> s <> EmptyString ->
  StringToNumber s = signedDecimal s.
Proof.
  intros H N. unfold StringToNumber.
  rewrite (trimStart_digits s H), (trimEnd_digits s H).
  destruct s as [ | c [ | x t ] ]; [ now contradiction N | reflexivity | ].
  simpl in H. apply andb_prop in H as [_ H]. apply andb_prop in H as [Hx _].
  destruct (isDigit_char x Hx) as [_ [_ [_ [_ [_ [_ [_ [X [O B]]]]]]]]].
  rewrite X, O, B. now destruct (negb (Ascii.eqb c "0")).
Qed.

(** a literal of digits is the double nearest to the number its digits
    spell *)
Lemma Number_allDigits (s : string) (v : Z) :
  allDigits s = true -> s <> EmptyString ->
  fst (fst (digits 10 s 0 0)) = v ->
  Number s = round64 (inject_Z v).
Proof.
  intros H N V. unfold Number. rewrite (literal_allDigits s H N).
  destruct (decimal_allDigits s v H N V) as [S [I D]].
  unfold signedDecimal. rewrite S, I, D.
  unfold isZero. cbn [Qnum inject_Z].
  destruct (Z.eqb_spec v 0) as [-> | _]; reflexivity.
Qed.

(** one printed digit, read back on top of a positive accumulator *)
Ltac read_digit IH k :=
  cbn [NilEmpty.string_of_uint append digits Decimal.nb_digits Pos.of_uint_acc];
  match goal with
  | |- context [digit 10 ?c] => change (digit 10 c) with (Some k)
  end;
  cbn iota;
  match goal with
  | |- digits 10 _ ?a _ = _ => replace a with (Z.pos (Z.to_pos a)) by lia
  end.

Lemma digits_string_of_uint_acc (d : Decimal.uint) (r : string)
    (acc : positive) (c : Z) :
  digits 10 (NilEmpty.string_of_uint d ++ r) (Z.pos acc) c =
  digits 10 r (Z.pos (Pos.of_uint_acc d acc)) (c + Z.of_nat (Decimal.nb_digits d)).
Proof.
  revert r acc c.
  induction d as [ | d IH | d IH | d IH | d IH | d IH | d IH | d IH | d IH
                   | d IH | d IH ]; intros r acc c.
  - simpl. now rewrite Z.add_0_r.
  - read_digit IH 0. rewrite IH. f_equal; [ do 2 f_equal; lia | lia ].
  - read_digit IH 1. rewrite IH. f_equal; [ do 2 f_equal; lia | lia ].
  - read_digit IH 2. rewrite IH. f_equal; [ do 2 f_equal; lia | lia ].
  - read_digit IH 3. rewrite IH. f_equal; [ do 2 f_equal; lia | lia ].
  - read_digit IH 4. rewrite IH. f_equal; [ do 2 f_equal; lia | lia ].
  - read_digit IH 5. rewrite IH. f_equal; [ do 2 f_equal; lia | lia ].
  - read_digit IH 6. rewrite IH. f_equal; [ do 2 f_equal; lia | lia ].
  - read_digit IH 7. rewrite IH. f_equal; [ do 2 f_equal; lia | lia ].
  - read_digit IH 8. rewrite IH. f_equal; [ do 2 f_equal; lia | lia ].
  - read_digit IH 9. rewrite IH. f_equal; [ do 2 f_equal; lia | lia ].
Qed.

Lemma digits_string_of_uint (d : Decimal.uint) (r : string) (c : Z) :
  digits 10 (NilEmpty.string_of_uint d ++ r) 0 c =
  digits 10 r (Z.of_N (Pos.of_uint d)) (c + Z.of_nat (Decimal.nb_digits d)).
Proof.
  revert c.
  induction d as [ | d IH | d IH | d IH | d IH | d IH | d IH | d IH | d IH
                   | d IH | d IH ]; intros c;
    [ simpl; now rewrite Z.add_0_r
    | cbn [NilEmpty.string_of_uint append digits Decimal.nb_digits Pos.of_uint];
      change (digit 10 "0") with (Some 0); cbn iota;
      change (0 * 10 + 0) with 0; rewrite IH; f_equal; lia
    | cbn [NilEmpty.string_of_uint append digits Decimal.nb_digits Pos.of_uint];
      match goal with
      | |- context [digit 10 ?x] =>
          let v := eval vm_compute in (digit 10 x) in change (digit 10 x) with v
      end;
      cbn iota;
      match goal with
      | |- digits 10 _ ?a _ = _ =>
          let v := eval vm_compute in a in change a with v
      end;
      rewrite digits_string_of_uint_acc; cbn [Z.of_N]; f_equal; lia .. ].
Qed.

Lemma digits_zeros (n : nat) (acc c : Z) :
  digits 10 (zeros n) acc c = (acc * 10 ^ Z.of_nat n, c + Z.of_nat n, EmptyString).
Proof.
  revert acc c. induction n as [ | n IH ]; intros acc c.
  - simpl. now rewrite Z.mul_1_r, Z.add_0_r.
  - cbn [zeros digits]. change (digit 10 "0") with (Some 0). cbn iota.
    rewrite IH, Nat2Z.inj_succ, Z.pow_succ_r by lia.
    do 2 f_equal; lia.
Qed.

(** the accumulator is the leading part of the number read *)
Lemma of_uint_acc_bound (d : Decimal.uint) (acc : positive) :
  Z.pos acc * 10 ^ Z.of_nat (Decimal.nb_digits d) <= Z.pos (Pos.of_uint_acc d acc).
Proof.
  revert acc.
  induction d as [ | d IH | d IH | d IH | d IH | d IH | d IH | d IH | d IH
                   | d IH | d IH ]; intros acc;
    [ simpl; lia
    | cbn [Decimal.nb_digits Pos.of_uint_acc];
      rewrite Nat2Z.inj_succ, Z.pow_succ_r by lia;
      match goal with
      | |- _ <= Z.pos (Pos.of_uint_acc _ ?a) => specialize (IH a)
      end;
      assert (0 < 10 ^ Z.of_nat (Decimal.nb_digits d))
        by (apply Z.pow_pos_nonneg; lia);
      nia .. ].
Qed.

Lemma nzhead_no_zero (d d' : Decimal.uint) : Decimal.nzhead d <> Decimal.D0 d'.
Proof. induction d; simpl; try discriminate. exact IHd. Qed.

(** a number printed without leading zeros has as many digits as its size
    tells *)
Lemma of_uint_norm_bound (d : Decimal.uint) :
  Decimal.unorm d = d -> d <> Decimal.zero ->
  10 ^ (Z.of_nat (Decimal.nb_digits d) - 1) <= Z.of_N (Pos.of_uint d).
Proof.
  intros U N.
  destruct d as [ | d | d | d | d | d | d | d | d | d | d ];
    [ discriminate U
    | exfalso; unfold Decimal.unorm in U; cbn [Decimal.nzhead] in U;
      destruct (Decimal.nzhead d) eqn:E;
        [ injection U as <-; now contradiction N
        | now apply nzhead_no_zero in E
        | discriminate U .. ]
    | cbn [Decimal.nb_digits Pos.of_uint Z.of_N];
      match goal with
      | |- _ <= Z.pos (Pos.of_uint_acc _ ?a) =>
          pose proof (of_uint_acc_bound d a) as B
      end;
      replace (Z.of_nat (S (Decimal.nb_digits d)) - 1)
        with (Z.of_nat (Decimal.nb_digits d)) by lia;
      assert (0 < 10 ^ Z.of_nat (Decimal.nb_digits d))
        by (apply Z.pow_pos_nonneg; lia);
      nia .. ].
Qed.

(** the digits of a positive integer *)
Lemma digitsOf_pos (p : positive) :
  exists d : Decimal.uint,
    digitsOf (Z.pos p) = NilEmpty.string_of_uint d /\
    Pos.of_uint d = Npos p /\
    (1 <= Decimal.nb_digits d)%nat /\
    10 ^ (Z.of_nat (Decimal.nb_digits d) - 1) <= Z.pos p.
Proof.
  exists (Pos.to_uint p).
  pose proof (DecimalPos.Unsigned.of_to p) as O.
  pose proof (DecimalPos.Unsigned.to_uint_nonnil p) as NN.
  pose proof (DecimalPos.Unsigned.to_uint_nonzero p) as NZ.
  assert (U : Decimal.unorm (Pos.to_uint p) = Pos.to_uint p).
  { rewrite <- DecimalPos.Unsigned.to_of, O. reflexivity. }
  repeat split.
  - unfold digitsOf. cbn [Z.to_N N.to_uint]. unfold NilZero.string_of_uint.
    destruct (Pos.to_uint p); [ now contradiction NN | reflexivity .. ].
  - exact O.
  - destruct (Pos.to_uint p); [ now contradiction NN | simpl; lia .. ].
  - pose proof (of_uint_norm_bound _ U NZ) as B. rewrite O in B. exact B.
Qed.

(** [strip] keeps the value and leaves a positive number *)
Lemma strip_spec (fuel : nat) (m z0 s zc : Z) :
  0 < m -> 0 <= z0 -> strip fuel m z0 = (s, zc) ->
  0 < s /\ z0 <= zc /\ m * 10 ^ z0 = s * 10 ^ zc.
Proof.
  revert m z0. induction fuel as [ | fuel IH ]; intros m z0 Lm Lz; cbn [strip].
  - intros E. injection E as <- <-. repeat split; lia.
  - replace (m =? 0) with false by (symmetry; apply Z.eqb_neq; lia).
    destruct (Z.eqb_spec (m mod 10) 0) as [M | M].
    + intros E.
      pose proof (Z.div_mod m 10 ltac:(lia)) as D. rewrite M in D.
      destruct (IH (m / 10) (z0 + 1) ltac:(lia) ltac:(lia) E) as [A [B C]].
      repeat split; [ exact A | lia | ].
      rewrite <- C, Z.pow_add_r by lia. change (10 ^ 1) with 10. lia.
    + intros E. injection E as <- <-. repeat split; lia.
Qed.

Lemma round64_normal (q v : Q) : round64 q = Fin v -> Qred v = v.
Proof.
  unfold round64.
  destruct (Qnum (Qred q)) as [ | p | p ].
  - intros E. injection E as <-. reflexivity.
  - destruct (roundMagnitude _ _) as [m sh]. unfold finite, zero.
    destruct (m =? 0); [ intros E; injection E as <-; reflexivity | ].
    destruct (1024 <=? Z.log2 m + sh); [ discriminate | ].
    intros E. injection E as <-. apply Qred_idem.
  - destruct (roundMagnitude _ _) as [m sh]. unfold finite, zero.
    destruct (m =? 0); [ discriminate | ].
    destruct (1024 <=? Z.log2 m + sh); [ discriminate | ].
    intros E. assert (V : v = Qred (- scale2 m sh)) by congruence.
    rewrite V. apply Qred_idem.
Qed.

Lemma readsBack_integer (z s e : Z) :
  0 < z -> 0 <= e -> readsBack z 1 s e = true ->
  round64 (inject_Z (s * 10 ^ e)) = Fin (inject_Z z).
Proof.
  intros Lz Le. unfold readsBack, scale10.
  replace (0 <=? e) with true by (symmetry; apply Z.leb_le; lia).
  destruct (round64 (inject_Z (s * 10 ^ e))) as [ | | | v ] eqn:E; try discriminate.
  intros H. apply Qeq_bool_iff in H.
  f_equal. rewrite <- (round64_normal _ _ E).
  rewrite <- (Qred_inject_Z z). apply Qred_complete.
  rewrite H. destruct z; try lia. reflexivity.
Qed.

Lemma shifted_integer (z e : Z) : 0 <= e -> shifted z 1 e = (z, 10 ^ e).
Proof.
  intros H. unfold shifted.
  replace (0 <=? e) with true by (symmetry; apply Z.leb_le; lia).
  now rewrite Z.mul_1_l.
Qed.

(** the decimal exponent the search for digits starts from *)
Lemma decimalExponent_bounds (fuel : nat) (z n : Z) :
  1 <= z < 10 ^ 16 ->
  n <= decimalExponent fuel z 1 n <= Z.max n 16 /\
  (1 - n <= Z.of_nat fuel -> 1 <= decimalExponent fuel z 1 n).
Proof.
  intros Bz. revert n. induction fuel as [ | fuel IH ]; intros n.
  - cbn [decimalExponent]. lia.
  - cbn [decimalExponent].
    destruct (Z.leb_spec 0 n) as [Ln | Ln].
    + rewrite (shifted_integer z n Ln).
      destruct (Z.leb_spec (10 ^ n) z) as [T | T].
      * assert (n < 16).
        { apply (Z.pow_lt_mono_r_iff 10); lia. }
        destruct (IH (n + 1)) as [A _]. lia.
      * assert (n <> 0) by (intros ->; simpl in T; lia). lia.
    + unfold shifted.
      replace (0 <=? n) with false by (symmetry; apply Z.leb_gt; lia).
      assert (P : 0 < 10 ^ (- n)) by (apply Z.pow_pos_nonneg; lia).
      replace (1 <=? z * 10 ^ (- n)) with true by (symmetry; apply Z.leb_le; nia).
      destruct (IH (n + 1)) as [A B]. lia.
Qed.

Lemma digitsAt_zero (z : Z) : digitsAt z 1 0 = Some z.
Proof.
  unfold digitsAt. rewrite shifted_integer by lia. change (10 ^ 0) with 1.
  now rewrite Z.mod_1_r, Z.div_1_r.
Qed.

(** the digits found at a decimal exponent are the exact ones or read back,
    and they are at most one unit of that exponent above the number *)
Lemma digitsAt_integer (z e s : Z) :
  0 < z -> 0 <= e -> digitsAt z 1 e = Some s ->
  0 <= s /\ s * 10 ^ e <= z + 10 ^ e /\
  (s * 10 ^ e = z \/ readsBack z 1 s e = true).
Proof.
  intros Lz Le. unfold digitsAt. rewrite (shifted_integer z e Le).
  assert (P : 0 < 10 ^ e) by (apply Z.pow_pos_nonneg; lia).
  pose proof (Z.div_mod z (10 ^ e) ltac:(lia)) as D.
  pose proof (Z.mod_pos_bound z (10 ^ e) P) as M.
  assert (Q : 0 <= z / 10 ^ e) by (apply Z.div_pos; lia).
  cbv zeta.
  destruct (Z.eqb_spec (z mod 10 ^ e) 0) as [R | R].
  - intros E. injection E as <-. split; [ lia | split; [ lia | left; lia ] ].
  - destruct (readsBack z 1 (z / 10 ^ e) e) eqn:A,
             (readsBack z 1 (z / 10 ^ e + 1) e) eqn:B;
      [ destruct (2 * (z mod 10 ^ e) <? 10 ^ e);
          [ | destruct (10 ^ e <? 2 * (z mod 10 ^ e));
              [ | destruct (Z.even (z / 10 ^ e)) ] ]
      | | | discriminate ];
      intros E; injection E as <-;
      (split; [ lia | split; [ lia | right; assumption ] ]).
Qed.

(** the search for the fewest digits ends at an exponent of 0 or above *)
Lemma shortest_integer (fuel : nat) (z e s e' : Z) :
  0 < z -> 0 <= e < Z.of_nat fuel -> shortest fuel z 1 e = (s, e') ->
  0 <= e' <= e /\ 0 <= s /\ s * 10 ^ e' <= z + 10 ^ e' /\
  (s * 10 ^ e' = z \/ readsBack z 1 s e' = true).
Proof.
  intros Lz. revert e. induction fuel as [ | fuel IH ]; intros e Be.
  - lia.
  - cbn [shortest]. destruct (digitsAt z 1 e) as [ s1 | ] eqn:D.
    + intros E. injection E as <- <-.
      destruct (digitsAt_integer z e s1 Lz ltac:(lia) D) as [A [B C]].
      repeat split; try lia; assumption.
    + assert (e <> 0) by (intros ->; rewrite digitsAt_zero in D; discriminate).
      intros E. destruct (IH (e - 1) ltac:(lia) E) as [A [B [C F]]].
      repeat split; try lia; assumption.
Qed.

(** An integer up to 2^53 is printed as digits that read back as it. *)
Lemma toString_positive (p : positive) :
  Z.pos p <= 2 ^ 53 ->
  exists (d : Decimal.uint) (zc : Z),
    toString (Fin (inject_Z (Z.pos p))) =
      (NilEmpty.string_of_uint d ++ zeros (Z.to_nat zc))%string /\
    (1 <= Decimal.nb_digits d)%nat /\ 0 <= zc /\
    round64 (inject_Z (Z.of_N (Pos.of_uint d) * 10 ^ zc))
    = Fin (inject_Z (Z.pos p)).
Proof.
  intros Lp. unfold toString. rewrite Qred_inject_Z. cbn [inject_Z Qnum Qden].
  unfold positiveToString.
  set (b := binaryExponent (Z.pos p) 1).
  assert (Bb : 0 <= b <= 53).
  { pose proof (binaryExponent_lower (Z.pos p) 1 ltac:(lia) ltac:(lia)) as Lo.
    change (Z.log2 1) with 0 in Lo. fold b in Lo.
    pose proof (binaryExponent_spec (Z.pos p) 1 1 ltac:(lia) ltac:(lia)
                                    ltac:(lia) ltac:(fold b; lia)) as [L U].
    fold b in L, U. change (2 ^ 1) with 2 in L, U.
    split.
    - assert (2 ^ 1 < 2 ^ (b + 1 + 1)) by (change (2 ^ 1) with 2; lia).
      apply Z.pow_lt_mono_r_iff in H; lia.
    - assert (2 ^ (b + 1) < 2 ^ 55).
      { apply Z.le_lt_trans with (m := 2 ^ 54); [ | reflexivity ].
        change (2 ^ 54) with (2 ^ 53 * 2). lia. }
      apply Z.pow_lt_mono_r_iff in H; lia. }
  assert (Bs : -1 <= b * 30103 / 100000 - 1 <= 14).
  { pose proof (Z.div_le_mono (b * 30103) (53 * 30103) 100000 ltac:(lia) ltac:(lia)).
    pose proof (Z.div_pos (b * 30103) 100000 ltac:(lia) ltac:(lia)).
    change (53 * 30103 / 100000) with 15 in *. lia. }
  destruct (decimalExponent_bounds 5 (Z.pos p) (b * 30103 / 100000 - 1))
    as [[_ U0] L0].
  { split; [ lia | ]. apply Z.le_lt_trans with (m := 2 ^ 53); [ exact Lp | reflexivity ]. }
  specialize (L0 ltac:(change (Z.of_nat 5) with 5; lia)).
  set (n0 := decimalExponent 5 (Z.pos p) 1 (b * 30103 / 100000 - 1)) in *.
  destruct (shortest 17 (Z.pos p) 1 (n0 - 1)) as [s0 e0] eqn:Sh.
  destruct (shortest_integer 17 (Z.pos p) (n0 - 1) s0 e0 ltac:(lia)
                             ltac:(change (Z.of_nat 17) with 17; lia) Sh)
    as [Be [Ls [Us R]]].
  assert (V : round64 (inject_Z (s0 * 10 ^ e0)) = Fin (inject_Z (Z.pos p))).
  { destruct R as [-> | R].
    - apply round64_inject_Z. lia.
    - apply readsBack_integer; [ lia | lia | exact R ]. }
  assert (Ns : s0 <> 0).
  { intros ->. rewrite Z.mul_0_l in V. discriminate V. }
  destruct (strip (Z.to_nat (Z.log2 s0) + 1) s0 0) as [s zc] eqn:E.
  destruct (strip_spec _ s0 0 s zc ltac:(lia) ltac:(lia) E) as [Lq [Lz W]].
  change (10 ^ 0) with 1 in W. rewrite Z.mul_1_r in W.
  destruct s as [ | q | q ]; try lia.
  destruct (digitsOf_pos q) as [d [D [O [N B]]]].
  exists d, (e0 + zc). rewrite D, length_string_of_uint.
  assert (Pz : 0 < 10 ^ zc) by (apply Z.pow_pos_nonneg; lia).
  assert (Pe : 0 < 10 ^ e0) by (apply Z.pow_pos_nonneg; lia).
  assert (Ue : 10 ^ e0 <= 10 ^ 15) by (apply Z.pow_le_mono_r; lia).
  assert (K : Z.of_nat (Decimal.nb_digits d) + (e0 + zc) <= 21).
  { assert (L : 10 ^ (Z.of_nat (Decimal.nb_digits d) - 1 + zc + e0) < 10 ^ 17).
    { rewrite !Z.pow_add_r by lia.
      apply Z.le_lt_trans with (m := s0 * 10 ^ e0).
      - rewrite W. apply Z.mul_le_mono_nonneg_r; [ lia | ].
        apply Z.mul_le_mono_nonneg_r; lia.
      - apply Z.le_lt_trans with (m := 2 ^ 53 + 10 ^ 15); [ lia | reflexivity ]. }
    apply Z.pow_lt_mono_r_iff in L; lia. }
  replace (Z.of_nat (Decimal.nb_digits d) <=? Z.of_nat (Decimal.nb_digits d) + (e0 + zc))
    with true by (symmetry; apply Z.leb_le; lia).
  replace (Z.of_nat (Decimal.nb_digits d) + (e0 + zc) <=? 21)
    with true by (symmetry; apply Z.leb_le; lia).
  cbn [andb].
  replace (Z.of_nat (Decimal.nb_digits d) + (e0 + zc) - Z.of_nat (Decimal.nb_digits d))
    with (e0 + zc) by lia.
  repeat split; [ exact N | lia | ].
  rewrite O. cbn [Z.of_N]. rewrite <- V. f_equal. f_equal.
  rewrite W, Z.pow_add_r by lia. lia.
Qed.

(** reading back what [toString_positive] prints *)
Lemma printed_digits_value (d : Decimal.uint) (zc : Z) :
  (1 <= Decimal.nb_digits d)%nat -> 0 <= zc ->
  let s := (NilEmpty.string_of_uint d ++ zeros (Z.to_nat zc))%string in
  allDigits s = true /\ s <> EmptyString /\
  fst (fst (digits 10 s 0 0)) = Z.of_N (Pos.of_uint d) * 10 ^ zc.
Proof.
  intros N Lz s. subst s. repeat split.
  - now rewrite allDigits_app, allDigits_string_of_uint, allDigits_zeros.
  - destruct d; [ simpl in N; lia | discriminate .. ].
  - rewrite digits_string_of_uint, digits_zeros. cbn [fst].
    now rewrite Z2Nat.id by lia.
Qed.

(** The string an integer from 0 to 2^53 is printed as is read back as that
    integer. *)
Lemma Number_pageString (z : Z) :
  0 <= z <= 2 ^ 53 ->
  Number (LinkHeaderInterceptor.pageString z) = Fin (inject_Z z).
Proof.
  intros B. unfold LinkHeaderInterceptor.pageString.
  destruct z as [ | p | p ]; [ reflexivity | | lia ].
  destruct (toString_positive p ltac:(lia)) as [d [zc [E [N [Lz V]]]]].
  rewrite E.
  destruct (printed_digits_value d zc N Lz) as [A [NE W]].
  now rewrite (Number_allDigits _ _ A NE W).
Qed.

End DigitFacts.

(** ** Following the links *)
Module Navigation.
Import JS JSFacts LinkHeaderInterceptor LinkFacts Intercept DigitFacts.

Local Open Scope Z_scope.



(** X12. The [next] links lead from page 1 to the page of the [last] link
    and stop there: for integers 1 <= limit <= 2^53 and
    0 <= totalDocs < 2^53, every page from 1 up to but not including
    floor(totalDocs / limit) + 1 has a [next] link to the page after it, and
    the page floor(totalDocs / limit) + 1 has none. *)
Theorem next_links_end_at_last_page (o : LinkOptions.t) (l t : Z) :
  asInteger (Number (LinkOptions.limit o)) = Some l ->
  asInteger (LinkOptions.totalDocs o) = Some t ->
  1 <= l <= 2 ^ 53 -> 0 <= t < 2 ^ 53 ->
  Links.get next (linkObject (withPage o (pageString (t / l + 1)))) = None /\
  forall p : Z,
    1 <= p < t / l + 1 ->
    Links.get next (linkObject (withPage o (pageString p))) =
      Some (Link.make (pageUrl o (pageString (p + 1))) next
                      (LinkOptions.limit o) (pageString (p + 1))).
Proof.
  intros Hl Ht Ll Lt.
  assert (Q : 0 <= t / l < 2 ^ 53).
  { split; [ apply Z.div_pos; lia | ].
    apply Z.div_lt_upper_bound; [ lia | nia ]. }
  assert (G : forall p, 1 <= p <= t / l + 1 ->
              Links.get next (linkObject (withPage o (pageString p))) =
              if p <=? t / l
              then Some (Link.make (pageUrl o (pageString (p + 1))) next
                                   (LinkOptions.limit o) (pageString (p + 1)))
              else None).
  { intros p Bp.
    assert (Hp : asInteger (Number (LinkOptions.page (withPage o (pageString p))))
                 = Some p).
    { unfold withPage. cbn [LinkOptions.page].
      rewrite Number_pageString by lia. apply asInteger_inject_Z. }
    rewrite get_next.
    rewrite (hasNextPage_integers (withPage o (pageString p)) p l t Hp Hl Ht)
      by lia.
    destruct (Z.leb_spec p (t / l)) as [L | L]; [ | reflexivity ].
    now rewrite (buildLink_next_integer _ p Hp) by lia. }
  split.
  - rewrite G by lia.
    now replace (t / l + 1 <=? t / l) with false by (symmetry; apply Z.leb_gt; lia).
  - intros p Bp. rewrite G by lia.
    now replace (p <=? t / l) with true by (symmetry; apply Z.leb_le; lia).
Qed.

Lemma next_links_end_at_last_page_witness :
  (1 <= 10 <= 2 ^ 53 /\ 0 <= 25 < 2 ^ 53) /\
  Links.get next (linkObject (withPage scenarioA (pageString (25 / 10 + 1))))
    = None /\
  forall p : Z,
    1 <= p < 25 / 10 + 1 ->
    Links.get next (linkObject (withPage scenarioA (pageString p))) =
      Some (Link.make (pageUrl scenarioA (pageString (p + 1))) next
                      (LinkOptions.limit scenarioA) (pageString (p + 1))).
Proof.
  split; [ lia | ].
  apply (next_links_end_at_last_page scenarioA 10 25);
    [ vm_compute; reflexivity | vm_compute; reflexivity | lia | lia ].
Defined.

End Navigation.

(** ** The links of a request *)
Module RequestLinks.
Import JS JSFacts LinkHeaderInterceptor LinkFacts LinkObjectFacts.
Import Intercept InterceptFacts.

(** X13. The links of a request keep its path and nothing else of its URL:
    every link URL is the request URL up to its first question mark, which
    holds no question mark itself, followed by ?page=, a printed number,
    &per_page= and the per_page parameter of the request, or 100 when the
    request has none.  Other query parameters of the request are dropped. *)
Theorem links_keep_the_path_only {T : Type} (request : Request.t)
    (data : Data.t T) (rel : Relation) (link : Link.t) :
  In (rel, link) (linkObject (linkOptionsOf request data)) ->
  let path := hd EmptyString (split "?" (Request.url request)) in
  hasChar "?" path = false /\
  (Request.url request = path \/
   exists rest, Request.url request = path ++ String "?" rest) /\
  exists x : number,
    Link.url link =
    path ++ "?page=" ++ toString x ++ "&per_page=" ++
    nullish (Request.query_per_page request) "100".
Proof.
  intros H path.
  destruct (split_first "?" (Request.url request)) as [A B].
  split; [ exact A | split; [ exact B | ] ].
  rewrite (entry_is_built _ _ _ H).
  destruct rel.
  - exists one. now rewrite buildLink_first.
  - eexists. rewrite buildLink_next. reflexivity.
  - eexists. rewrite buildLink_prev. reflexivity.
  - eexists. rewrite buildLink_last. reflexivity.
Qed.

Lemma links_keep_the_path_only_witness :
  hasChar "?" "/items" = false /\
  ("/items?sort=name&page=2" = "/items" \/
   exists rest, "/items?sort=name&page=2" = "/items" ++ String "?" rest) /\
  exists x : number,
    "/items?page=1&per_page=100" =
    "/items" ++ "?page=" ++ toString x ++ "&per_page=" ++ "100".
Proof.
  apply (links_keep_the_path_only
           (Request.make "/items?sort=name&page=2" (Some "2") None)
           (Data.make [tt] (Fin 250)) prev
           (Link.make "/items?page=1&per_page=100" prev "100" "1")).
  vm_compute. right. right. right. left. reflexivity.
Defined.

End RequestLinks.
